(** * TestKit: a shallow embedding of [TestKit.hpp]

    The header declares a tree of test segments and tasks, a process-wide
    scope stack, and a report generator.  The development below embeds the
    data model and every function of the header as executable definitions
    and proves the behaviour of outcome aggregation, assertion recording,
    scope handling, report rendering and reset. *)

From Stdlib Require Import ZArith Lia Ascii String DecimalString.
From stdpp Require Import base option list strings.

Local Open Scope Z_scope.

(** ** Faults

    The header can stop a run in five ways: a failed [assert], [top()] on an
    empty [std::stack], a scope-stack pointer that no longer designates a
    segment of the tree, [std::string::substr] past the end, and a
    [std::string] asked for more characters than [max_size()]. *)

Inductive Fault : Type :=
| AssertionFailed
| EmptyStack
| DanglingSegment
| OutOfRange
| LengthError.

Inductive result (A : Type) : Type :=
| Ok (a : A)
| Abort (f : Fault).

Arguments Ok {A} a.
Arguments Abort {A} f.

Definition bind {A B : Type} (m : result A) (k : A -> result B) : result B :=
  match m with
  | Ok a => k a
  | Abort f => Abort f
  end.

Notation "'do' x <- m ; k" := (bind m (fun x => k))
  (at level 10, x name, m at level 100, k at level 200).

Definition is_Ok {A : Type} (m : result A) : Prop := exists a, m = Ok a.

(** ** Constants *)

Definition ESC : string := String (ascii_of_nat 27) EmptyString.
Definition NEWLINE : string := String (ascii_of_nat 10) EmptyString.

Definition CHECK_MARK : string := "✓".
Definition CROSS_MARK : string := "✘".
Definition CIRCLE_SYM : string := "○".
Definition ANSI_RESET : string := ESC +:+ "[0m".
Definition ANSI_GRAY : string := ESC +:+ "[38;5;246m".
Definition ANSI_GREEN : string := ESC +:+ "[38;5;42m".
Definition ANSI_RED : string := ESC +:+ "[38;5;196m".
Definition ANSI_DARK_GREEN : string := ESC +:+ "[38;5;28m".
Definition ANSI_DARK_RED : string := ESC +:+ "[38;5;160m".
Definition ANSI_ITALIC : string := ESC +:+ "[3m".

(** ** Outcome, Options, Task, Segment *)

Module Outcome.
Inductive t : Type :=
| None    (* the test did not run *)
| Failed
| Passed.

Definition eqb (a b : t) : bool :=
  match a, b with
  | None, None | Failed, Failed | Passed, Passed => true
  | _, _ => false
  end.
End Outcome.

Record Options : Type := mkOptions { detailDepth : Z }.

(** [std::source_location]: only [file_name()] and [line()] are read. *)
Record source_location : Type := mkSource { file_name : string; line : N }.

Record Task : Type := mkTask {
  t_name : string;
  t_source : source_location;
  t_outcome : Outcome.t
}.

(** A segment stores its sub-segments and tasks in two [std::list]s and keeps
    [m_nodes], the pointers to them in insertion order.  Elements of a
    [std::list] never move, so the model keeps the pointees in [m_nodes]
    itself; [m_segments] and [m_tasks] are the two projections of it. *)
Inductive Node : Type :=
| NodeTask (t : Task)
| NodeSegment (s : Segment)
with Segment : Type :=
| mkSegment (name : string) (nodes : list Node) (didFail : bool).

Definition m_name (s : Segment) : string :=
  match s with mkSegment name _ _ => name end.
Definition m_nodes (s : Segment) : list Node :=
  match s with mkSegment _ nodes _ => nodes end.
Definition m_didFail (s : Segment) : bool :=
  match s with mkSegment _ _ didFail => didFail end.

Definition m_segments (s : Segment) : list Segment :=
  omap (fun n => match n with NodeSegment c => Some c | NodeTask _ => None end)
       (m_nodes s).
Definition m_tasks (s : Segment) : list Task :=
  omap (fun n => match n with NodeTask t => Some t | NodeSegment _ => None end)
       (m_nodes s).

(** Structural induction through the list of children. *)
Section SegmentInduction.
Variable P : Segment -> Prop.
Variable Q : Node -> Prop.
Hypothesis HTask : forall t, Q (NodeTask t).
Hypothesis HSub : forall s, P s -> Q (NodeSegment s).
Hypothesis HSeg : forall name nodes didFail,
  Forall Q nodes -> P (mkSegment name nodes didFail).

Fixpoint Segment_induction (s : Segment) : P s :=
  match s with
  | mkSegment name nodes didFail =>
      HSeg name nodes didFail
        ((fix children (l : list Node) : Forall Q l :=
            match l with
            | [] => List.Forall_nil Q
            | n :: l' => List.Forall_cons Q n l' (Node_induction n) (children l')
            end) nodes)
  end
with Node_induction (n : Node) : Q n :=
  match n with
  | NodeTask t => HTask t
  | NodeSegment s => HSub s (Segment_induction s)
  end.
End SegmentInduction.

(** ** Task *)

(** [Task::Build( name, source )]: a task that did not run. *)
Definition Task_Build_norun (name : string) (source : source_location) : Task :=
  {| t_name := name; t_source := source; t_outcome := Outcome.None |}.

(** [Task::Build( name, source, result )]. *)
Definition Task_Build (name : string) (source : source_location) (result : bool) : Task :=
  let out := Task_Build_norun name source in
  {| t_name := t_name out; t_source := t_source out;
     t_outcome := if result then Outcome.Passed else Outcome.Failed |}.

Definition Task_Check (t : Task) : Outcome.t := t_outcome t.

(** ** Segment *)

Definition Segment_Build (name : string) : Segment := mkSegment name [] false.

Definition DidFail (s : Segment) : bool := m_didFail s.

Definition MarkFailed (s : Segment) : Segment :=
  mkSegment (m_name s) (m_nodes s) true.

(** [AddSegment]: the copy stored in the parent takes the parent's flag.  The
    returned pointer designates the last element of [m_nodes].  The one
    caller passes [Segment::Build( name )], which has no children, so the
    copy of its [m_nodes] shares nothing with the argument. *)
Definition AddSegment (parent : Segment) (segment : Segment) : Segment * nat :=
  let segment' := mkSegment (m_name segment) (m_nodes segment) (m_didFail parent) in
  (mkSegment (m_name parent) (m_nodes parent ++ [NodeSegment segment']) (m_didFail parent),
   length (m_nodes parent)).

Definition AddTask (s : Segment) (task : Task) : Segment :=
  mkSegment (m_name s) (m_nodes s ++ [NodeTask task]) (m_didFail s).

(** The loop of [Segment::Check].  [inl o] is the early [return o] from
    inside the loop, [inr (allPassed, allAreNone)] the two flags on leaving
    it. *)
Section CheckLoop.
Variable check : Node -> result Outcome.t.

Fixpoint Check_loop (nodes : list Node) (allPassed allAreNone : bool)
  : result (Outcome.t + bool * bool) :=
  match nodes with
  | [] => Ok (inr (allPassed, allAreNone))
  | node :: rest =>
      do outcome <- check node;
      if Outcome.eqb outcome Outcome.Failed then Ok (inl Outcome.Failed)
      else
        let allPassed := if negb (Outcome.eqb outcome Outcome.Passed) then false else allPassed in
        let allAreNone := if negb (Outcome.eqb outcome Outcome.None) then false else allAreNone in
        Check_loop rest allPassed allAreNone
  end.

Definition Segment_Check_with (s : Segment) : result Outcome.t :=
  match s with
  | mkSegment _ nodes _ =>
      if (length nodes =? 0)%nat then Ok Outcome.None
      else
        do r <- Check_loop nodes true true;
        match r with
        | inl o => Ok o
        | inr (allPassed, allAreNone) =>
            if allPassed then Ok Outcome.Passed
            else if allAreNone then Ok Outcome.None
            else if negb allPassed && negb allAreNone  (* the assert *)
            then Ok Outcome.Failed
            else Abort AssertionFailed
        end
  end.
End CheckLoop.

(** [Node::Check], dispatching on the two node kinds. *)
Fixpoint Node_Check (n : Node) : result Outcome.t :=
  match n with
  | NodeTask t => Ok (Task_Check t)
  | NodeSegment s => Segment_Check_with Node_Check s
  end.

Definition Segment_Check (s : Segment) : result Outcome.t :=
  Segment_Check_with Node_Check s.

(** ** Process-wide state

    A [Segment*] on the scope stack is modelled by the path of child indices
    leading from the root to the segment; [[]] is [&__internal_root].  The
    head of the list is the top of the stack. *)

Definition SegmentPtr : Type := list nat.

Record State : Type := mkState {
  __internal_root : Segment;
  __internal_segment_stack : list SegmentPtr;
  __internal_curr_options : Options
}.

Definition initial_state : State :=
  {| __internal_root := Segment_Build "";
     __internal_segment_stack := [ [] ];
     __internal_curr_options := {| detailDepth := -1 |} |}.

(** Reading and writing through a pointer. *)
Fixpoint deref (s : Segment) (p : SegmentPtr) : option Segment :=
  match p with
  | [] => Some s
  | i :: p' =>
      match m_nodes s !! i with
      | Some (NodeSegment c) => deref c p'
      | _ => None
      end
  end.

Fixpoint store (s : Segment) (p : SegmentPtr) (new : Segment) : Segment :=
  match p with
  | [] => new
  | i :: p' =>
      match m_nodes s !! i with
      | Some (NodeSegment c) =>
          mkSegment (m_name s) (<[i := NodeSegment (store c p' new)]> (m_nodes s)) (m_didFail s)
      | _ => s
      end
  end.

(** [__internal_segment_stack.top()] together with the segment it points to. *)
Definition top (st : State) : result (SegmentPtr * Segment) :=
  match __internal_segment_stack st with
  | [] => Abort EmptyStack
  | p :: _ =>
      match deref (__internal_root st) p with
      | Some s => Ok (p, s)
      | None => Abort DanglingSegment
      end
  end.

Definition set_top (st : State) (p : SegmentPtr) (new : Segment) : State :=
  {| __internal_root := store (__internal_root st) p new;
     __internal_segment_stack := __internal_segment_stack st;
     __internal_curr_options := __internal_curr_options st |}.

(** ** Scope manager *)

Definition SegmentScopeManager_enter (name : string) (st : State) : result State :=
  do pt <- top st;
  let '(p, top) := pt in
  let '(top', i) := AddSegment top (Segment_Build name) in
  let newSegment := p ++ [i] in
  Ok {| __internal_root := store (__internal_root st) p top';
        __internal_segment_stack := newSegment :: __internal_segment_stack st;
        __internal_curr_options := __internal_curr_options st |}.

Definition SegmentScopeManager_exit (st : State) : result State :=
  if (1 <? length (__internal_segment_stack st))%nat then
    Ok {| __internal_root := __internal_root st;
          __internal_segment_stack := tail (__internal_segment_stack st);
          __internal_curr_options := __internal_curr_options st |}
  else Abort AssertionFailed.

(** ** Recording macros

    The bodies of [__INTERNAL_TK_REQUIRE_2] and [__INTERNAL_TK_CHECK_2] on the
    segment [top] points to; [condition] is consulted only in the branch that
    evaluates it. *)

Definition REQUIRE_body (top : Segment) (msg : string) (src : source_location)
    (condition : bool) : Segment :=
  if DidFail top then AddTask top (Task_Build_norun msg src)
  else
    let c := condition in
    let top := if negb c then MarkFailed top else top in
    AddTask top (Task_Build msg src c).

Definition CHECK_body (top : Segment) (msg : string) (src : source_location)
    (condition : bool) : Segment :=
  if DidFail top then AddTask top (Task_Build_norun msg src)
  else AddTask top (Task_Build msg src condition).

Definition REQUIRE (msg : string) (src : source_location) (condition : bool)
    (st : State) : result State :=
  do pt <- top st;
  let '(p, top) := pt in
  Ok (set_top st p (REQUIRE_body top msg src condition)).

Definition CHECK (msg : string) (src : source_location) (condition : bool)
    (st : State) : result State :=
  do pt <- top st;
  let '(p, top) := pt in
  Ok (set_top st p (CHECK_body top msg src condition)).

(** ** Options and reset *)

Definition SetNewOptions (newOptions : Options) (st : State) : State :=
  {| __internal_root := __internal_root st;
     __internal_segment_stack := __internal_segment_stack st;
     __internal_curr_options := newOptions |}.

(** The [while( size() > 0 ) pop()] loop. *)
Fixpoint pop_all (stack : list SegmentPtr) : list SegmentPtr :=
  match stack with
  | [] => []
  | _ :: stack' => pop_all stack'
  end.

Definition Reset (st : State) : State :=
  {| __internal_root := mkSegment (m_name (__internal_root st)) [] false;
     __internal_segment_stack := [] :: pop_all (__internal_segment_stack st);
     __internal_curr_options := __internal_curr_options st |}.

(** ** Report generator *)

(** [std::string( n, ' ' )]. *)
Fixpoint spaces (n : nat) : string :=
  match n with
  | O => EmptyString
  | S n' => String " "%char (spaces n')
  end.

(** [out.ends_with( suffix )]. *)
Definition ends_with (out suffix : string) : bool :=
  let n := String.length out in
  let m := String.length suffix in
  (m <=? n)%nat && String.eqb (substring (n - m) m out) suffix.

(** Decimal rendering of an unsigned integer by [std::format]. *)
Definition to_decimal (n : N) : string := NilZero.string_of_uint (N.to_uint n).

(** [std::format( " ( at file: {}, line: {} )", file, line )]. *)
Definition format_location (file : string) (ln : N) : string :=
  " ( at file: " +:+ file +:+ ", line: " +:+ to_decimal ln +:+ " )".

(** [(uint16_t) detailDepth], promoted back to [int] by the comparison. *)
Definition to_uint16 (z : Z) : Z := z mod 65536.

(** [Stringify( const Task*, int )].  A task of the tree is never null.
    [depth * 2] is taken in the integers here, which is the header's [int]
    product as long as [depth] is below [2^30]; [Stringify_Task_int] below
    is the function with the arithmetic of [int]. *)
Definition Stringify_Task (task : Task) (depth : Z) : string :=
  if depth <? 0 then ""
  else
    let out := spaces (Z.to_nat (depth * 2)) in
    let outcome := Task_Check task in
    let out :=
      if Outcome.eqb outcome Outcome.Passed then out +:+ (ANSI_GREEN +:+ CHECK_MARK)
      else if Outcome.eqb outcome Outcome.None then out +:+ (ANSI_GRAY +:+ CIRCLE_SYM)
      else out +:+ (ANSI_RED +:+ CROSS_MARK) in
    let out := out +:+ (" " +:+ t_name task) in
    let out :=
      if Outcome.eqb outcome Outcome.Failed
      then out +:+ format_location (file_name (t_source task)) (line (t_source task))
      else out in
    out +:+ ANSI_RESET.

(** The loop over [segment->m_nodes]; [out] is the string built so far.  The
    two [dynamic_cast]s are the two constructors of [Node], so the third
    branch of the header has no counterpart. *)
Section StringifyLoop.
Variable stringify : Segment -> result string.  (* Stringify( subSegment, depth + 1 ) *)
Variable depth1 : Z.                             (* depth + 1 *)

Fixpoint Stringify_nodes (nodes : list Node) (out : string) : result string :=
  match nodes with
  | [] => Ok out
  | NodeSegment subSegment :: rest =>
      let out := if negb (ends_with out NEWLINE) then out +:+ NEWLINE else out in
      do sub <- stringify subSegment;
      Stringify_nodes rest (out +:+ (NEWLINE +:+ sub +:+ NEWLINE))
  | NodeTask subTask :: rest =>
      Stringify_nodes rest (out +:+ (NEWLINE +:+ Stringify_Task subTask depth1))
  end.
End StringifyLoop.

(** [Stringify( const Segment*, int )], with [depth * 2] and [depth + 1] in
    the integers as for the task; [Stringify_Segment_int] below is the
    function with the arithmetic of [int]. *)
Fixpoint Stringify_Segment (opts : Options) (segment : Segment) (depth : Z)
    {struct segment} : result string :=
  let out := if depth <? 0 then "" else spaces (Z.to_nat (depth * 2)) in
  do outcome <- Segment_Check segment;
  let out := if Outcome.eqb outcome Outcome.None then out +:+ ANSI_GRAY else out in
  let out := out +:+ m_name segment in
  do out <-
    (if negb (Outcome.eqb outcome Outcome.None) then
       let out := out +:+ ":" in
       let out :=
         if Outcome.eqb outcome Outcome.Passed
         then out +:+ (ANSI_ITALIC +:+ ANSI_DARK_GREEN +:+ " [all tests passed]")
         else if Outcome.eqb outcome Outcome.Failed
         then out +:+ (ANSI_ITALIC +:+ ANSI_DARK_RED +:+ " [some tests failed]")
         else out in
       let out := out +:+ ANSI_RESET in
       let out := if depth <? 0 then "" else out in
       if (depth <? to_uint16 (detailDepth opts)) || Outcome.eqb outcome Outcome.Failed
       then
         match segment with
         | mkSegment _ nodes _ =>
             Stringify_nodes (fun sub => Stringify_Segment opts sub (depth + 1))
                             (depth + 1) nodes out
         end
       else Ok out
     else Ok out);
  Ok (out +:+ ANSI_RESET).

(** [report.find_first_not_of( "\n" )]; [None] is [npos]. *)
Fixpoint find_first_not_of (c : ascii) (s : string) : option nat :=
  match s with
  | EmptyString => None
  | String a s' =>
      if Ascii.eqb a c then S <$> find_first_not_of c s' else Some O
  end.

(** [report.substr( pos )], which throws when [pos] exceeds the size. *)
Fixpoint substr (s : string) (pos : nat) : result string :=
  match pos, s with
  | O, _ => Ok s
  | S pos', String _ s' => substr s' pos'
  | S _, EmptyString => Abort OutOfRange
  end.

Definition GenerateReport (st : State) : result string :=
  do report <- Stringify_Segment (__internal_curr_options st) (__internal_root st) (-1);
  match find_first_not_of (ascii_of_nat 10) report with
  | Some pos => substr report pos
  | None => Abort OutOfRange
  end.

(** ** Report generator, with the arithmetic of [int]

    [depth] is an [int].  From [depth = 2^30] on, [depth * 2] leaves the
    range of [int]; the product wraps to a negative [int], which
    [std::string( count, ' ' )] receives as a [size_t] above [max_size()],
    and the constructor throws [std::length_error]. *)

Definition INT_MIN : Z := -2147483648.
Definition INT_MAX : Z := 2147483647.

(** The value of an [int] expression after 32-bit wrap-around. *)
Definition wrap_int (z : Z) : Z := (z - INT_MIN) mod 4294967296 + INT_MIN.

(** [std::string( count, ' ' )] for an [int] count. *)
Definition string_fill (count : Z) : result string :=
  if count <? 0 then Abort LengthError else Ok (spaces (Z.to_nat count)).

Definition Stringify_Task_int (task : Task) (depth : Z) : result string :=
  if depth <? 0 then Ok EmptyString
  else
    do out <- string_fill (wrap_int (depth * 2));
    let outcome := Task_Check task in
    let out :=
      if Outcome.eqb outcome Outcome.Passed then out +:+ (ANSI_GREEN +:+ CHECK_MARK)
      else if Outcome.eqb outcome Outcome.None then out +:+ (ANSI_GRAY +:+ CIRCLE_SYM)
      else out +:+ (ANSI_RED +:+ CROSS_MARK) in
    let out := out +:+ (" " +:+ t_name task) in
    let out :=
      if Outcome.eqb outcome Outcome.Failed
      then out +:+ format_location (file_name (t_source task)) (line (t_source task))
      else out in
    Ok (out +:+ ANSI_RESET).

Section StringifyLoopInt.
Variable stringify : Segment -> result string.  (* Stringify( subSegment, depth + 1 ) *)
Variable depth1 : Z.                             (* depth + 1 *)

Fixpoint Stringify_nodes_int (nodes : list Node) (out : string) : result string :=
  match nodes with
  | [] => Ok out
  | NodeSegment subSegment :: rest =>
      let out := if negb (ends_with out NEWLINE) then out +:+ NEWLINE else out in
      do sub <- stringify subSegment;
      Stringify_nodes_int rest (out +:+ (NEWLINE +:+ sub +:+ NEWLINE))
  | NodeTask subTask :: rest =>
      do sub <- Stringify_Task_int subTask depth1;
      Stringify_nodes_int rest (out +:+ (NEWLINE +:+ sub))
  end.
End StringifyLoopInt.

Fixpoint Stringify_Segment_int (opts : Options) (segment : Segment) (depth : Z)
    {struct segment} : result string :=
  do out <- (if depth <? 0 then Ok EmptyString else string_fill (wrap_int (depth * 2)));
  do outcome <- Segment_Check segment;
  let out := if Outcome.eqb outcome Outcome.None then out +:+ ANSI_GRAY else out in
  let out := out +:+ m_name segment in
  do out <-
    (if negb (Outcome.eqb outcome Outcome.None) then
       let out := out +:+ ":" in
       let out :=
         if Outcome.eqb outcome Outcome.Passed
         then out +:+ (ANSI_ITALIC +:+ ANSI_DARK_GREEN +:+ " [all tests passed]")
         else if Outcome.eqb outcome Outcome.Failed
         then out +:+ (ANSI_ITALIC +:+ ANSI_DARK_RED +:+ " [some tests failed]")
         else out in
       let out := out +:+ ANSI_RESET in
       let out := if depth <? 0 then "" else out in
       if (depth <? to_uint16 (detailDepth opts)) || Outcome.eqb outcome Outcome.Failed
       then
         match segment with
         | mkSegment _ nodes _ =>
             Stringify_nodes_int
               (fun sub => Stringify_Segment_int opts sub (wrap_int (depth + 1)))
               (wrap_int (depth + 1)) nodes out
         end
       else Ok out
     else Ok out);
  Ok (out +:+ ANSI_RESET).

(** [GenerateReport] over the renderer with the arithmetic of [int]. *)
Definition GenerateReport_int (st : State) : result string :=
  do report <- Stringify_Segment_int (__internal_curr_options st) (__internal_root st) (-1);
  match find_first_not_of (ascii_of_nat 10) report with
  | Some pos => substr report pos
  | None => Abort OutOfRange
  end.

(** ** Call sequences *)

Inductive Op : Type :=
| OpSection (name : string)   (* SECTION( name ) opens its block *)
| OpEndSection                (* the block of a SECTION is left *)
| OpRequire (msg : string) (src : source_location) (condition : bool)
| OpCheck (msg : string) (src : source_location) (condition : bool)
| OpSetNewOptions (newOptions : Options)
| OpReset
| OpGenerateReport.

Definition step (op : Op) (st : State) : result State :=
  match op with
  | OpSection name => SegmentScopeManager_enter name st
  | OpEndSection => SegmentScopeManager_exit st
  | OpRequire msg src c => REQUIRE msg src c st
  | OpCheck msg src c => CHECK msg src c st
  | OpSetNewOptions o => Ok (SetNewOptions o st)
  | OpReset => Ok (Reset st)
  | OpGenerateReport => do _ <- GenerateReport st; Ok st
  end.

Fixpoint run (ops : list Op) (st : State) : result State :=
  match ops with
  | [] => Ok st
  | op :: ops' => do st' <- step op st; run ops' st'
  end.

(** * Vocabulary of the properties *)

(** What the loop computes once every child has answered. *)
Definition has (o : Outcome.t) (outs : list Outcome.t) : bool :=
  existsb (Outcome.eqb o) outs.
Definition all_are (o : Outcome.t) (outs : list Outcome.t) : bool :=
  forallb (Outcome.eqb o) outs.

Definition aggregate (outs : list Outcome.t) : Outcome.t :=
  match outs with
  | [] => Outcome.None
  | _ =>
      if has Outcome.Failed outs then Outcome.Failed
      else if all_are Outcome.Passed outs then Outcome.Passed
      else if all_are Outcome.None outs then Outcome.None
      else Outcome.Failed
  end.

(** Some children passed, some did not run, none failed. *)
Definition mixed_state (s : Segment) : Prop :=
  (exists n, n ∈ m_nodes s /\ Node_Check n = Ok Outcome.Passed) /\
  (exists n, n ∈ m_nodes s /\ Node_Check n = Ok Outcome.None) /\
  (forall n, n ∈ m_nodes s -> Node_Check n <> Ok Outcome.Failed).

(** A segment [new] grows from [old] when it keeps the name, keeps a raised
    flag and only appends children: the three things [AddTask],
    [AddSegment] and [MarkFailed] do. *)
Definition grows (old new : Segment) : Prop :=
  m_name new = m_name old /\
  (DidFail old = true -> DidFail new = true) /\
  exists extra, m_nodes new = m_nodes old ++ extra.

(** A tree [s'] is a later version of [s] when every segment of [s] is still
    there, at the same place, with its flag still raised if it was and with
    its tasks where they were. *)
Definition later (s s' : Segment) : Prop :=
  forall p seg, deref s p = Some seg ->
    exists seg', deref s' p = Some seg' /\
      (DidFail seg = true -> DidFail seg' = true) /\
      (forall k t, m_nodes seg !! k = Some (NodeTask t) ->
                   m_nodes seg' !! k = Some (NodeTask t)).

Definition is_reset (op : Op) : bool :=
  match op with OpReset => true | _ => false end.

Definition no_reset (ops : list Op) : bool :=
  forallb (fun op => negb (is_reset op)) ops.

Definition indent (depth : Z) : string :=
  if depth <? 0 then "" else spaces (Z.to_nat (depth * 2)).

(** The text a segment contributes for itself, before any child. *)
Definition segment_line (segment : Segment) (depth : Z) (outcome : Outcome.t) : string :=
  match outcome with
  | Outcome.None => (indent depth +:+ ANSI_GRAY) +:+ m_name segment
  | Outcome.Passed =>
      if depth <? 0 then ""
      else (((indent depth +:+ m_name segment) +:+ ":")
              +:+ (ANSI_ITALIC +:+ ANSI_DARK_GREEN +:+ " [all tests passed]"))
           +:+ ANSI_RESET
  | Outcome.Failed =>
      if depth <? 0 then ""
      else (((indent depth +:+ m_name segment) +:+ ":")
              +:+ (ANSI_ITALIC +:+ ANSI_DARK_RED +:+ " [some tests failed]"))
           +:+ ANSI_RESET
  end.

(** The condition under which the header enters the loop over the children. *)
Definition expands (opts : Options) (depth : Z) (outcome : Outcome.t) : bool :=
  negb (Outcome.eqb outcome Outcome.None) &&
  ((depth <? to_uint16 (detailDepth opts)) || Outcome.eqb outcome Outcome.Failed).

(** The calling discipline of the macros: a [SECTION] block is left only
    after it was entered, and [Reset] is called outside every block.  [open]
    counts the blocks entered and not yet left. *)
Fixpoint balanced (open : nat) (ops : list Op) : bool :=
  match ops with
  | [] => true
  | OpSection _ :: ops' => balanced (S open) ops'
  | OpEndSection :: ops' =>
      match open with
      | O => false
      | S open' => balanced open' ops'
      end
  | OpReset :: ops' => (open =? 0)%nat && balanced open ops'
  | _ :: ops' => balanced open ops'
  end.

Definition stack_ok (st : State) : Prop :=
  last (__internal_segment_stack st) = Some [] /\
  Forall (fun p => is_Some (deref (__internal_root st) p)) (__internal_segment_stack st).

Definition contains (s sub : string) : Prop :=
  exists pre post, s = pre +:+ sub +:+ post.

(** The depth budget in the words of the specification: [-1] is unlimited,
    a non-negative [detailDepth] expands the levels below it. *)
Definition within_budget_spec (detail depth : Z) : Prop :=
  detail = -1 \/ (0 <= detail /\ depth < detail).

Definition src_demo : source_location := {| file_name := "math.cpp"; line := 12 |}.

(** The scenario of a segment with a passing, a failing and a skipped
    assertion. *)
Definition math_ops : list Op :=
  [OpSection "Math";
   OpRequire "2 + 2 == 4" src_demo true;
   OpRequire "1 == 2" src_demo false;
   OpRequire "3 == 3" src_demo true;
   OpEndSection].

Definition math_segment : Segment :=
  mkSegment "Math"
    [NodeTask (Task_Build "2 + 2 == 4" src_demo true);
     NodeTask (Task_Build "1 == 2" src_demo false);
     NodeTask (Task_Build_norun "3 == 3" src_demo)] true.

Definition passed_segment : Segment :=
  mkSegment "A" [NodeTask (Task_Build "ok" src_demo true)] false.

Definition skipped_segment : Segment :=
  mkSegment "A" [NodeTask (Task_Build_norun "ok" src_demo)] true.

(** A failure in the root followed by a section. *)
Definition skipped_ops : list Op :=
  [OpRequire "1 == 2" src_demo false;
   OpSection "A"; OpRequire "ok" src_demo true; OpEndSection].

Definition state_of (r : result State) : State :=
  match r with Ok st => st | Abort _ => initial_state end.

Definition math_state : State := Eval vm_compute in state_of (run math_ops initial_state).

Definition failed_state : State :=
  Eval vm_compute in state_of (run [OpRequire "1 == 2" src_demo false] initial_state).

(** Every task below a node, in report order. *)
Fixpoint tasks_of_node (n : Node) : list Task :=
  match n with
  | NodeTask t => [t]
  | NodeSegment (mkSegment _ nodes _) => concat (map tasks_of_node nodes)
  end.

Definition all_tasks (s : Segment) : list Task := tasks_of_node (NodeSegment s).

(** [tree_all local s]: [local] holds of [s] and of every segment below. *)
Fixpoint node_all (local : Segment -> bool) (n : Node) : bool :=
  match n with
  | NodeTask _ => true
  | NodeSegment s =>
      local s &&
      match s with mkSegment _ nodes _ => forallb (node_all local) nodes end
  end.

Definition tree_all (local : Segment -> bool) (s : Segment) : bool :=
  node_all local (NodeSegment s).

(** A test on the tasks stored directly in a segment. *)
Definition on_tasks (f : Task -> bool) (n : Node) : bool :=
  match n with
  | NodeTask t => f t
  | NodeSegment _ => true
  end.

(** A segment whose flag is down holds no task that did not run. *)
Definition ran_unless_failed (s : Segment) : bool :=
  m_didFail s ||
  forallb (on_tasks (fun t => negb (Outcome.eqb (Task_Check t) Outcome.None))) (m_nodes s).

(** A segment whose flag is raised and whose own tasks all did not run. *)
Definition skipped (s : Segment) : bool :=
  m_didFail s &&
  forallb (on_tasks (fun t => Outcome.eqb (Task_Check t) Outcome.None)) (m_nodes s).

(** A tree [s'] extends [s] when every segment of [s] is still at the same
    place in [s'] with the same name, with its flag raised if it was, with
    at least as many children, and with each of its tasks unchanged at the
    same index. *)
Definition extends (s s' : Segment) : Prop :=
  forall p seg, deref s p = Some seg ->
    exists seg', deref s' p = Some seg' /\
      m_name seg' = m_name seg /\
      (DidFail seg = true -> DidFail seg' = true) /\
      (length (m_nodes seg) <= length (m_nodes seg'))%nat /\
      (forall k t, m_nodes seg !! k = Some (NodeTask t) ->
                   m_nodes seg' !! k = Some (NodeTask t)).

(** The number of [REQUIRE] and [CHECK] calls in a sequence. *)
Definition is_recording (op : Op) : bool :=
  match op with
  | OpRequire _ _ _ | OpCheck _ _ _ => true
  | _ => false
  end.

Definition count_recordings (ops : list Op) : nat :=
  length (filter (fun op => is_recording op = true) ops).

(** One assertion as the macros receive it. *)
Definition Assertion : Type := string * source_location * bool.

Definition requires (items : list Assertion) : list Op :=
  map (fun '(msg, src, c) => OpRequire msg src c) items.

Definition checks (items : list Assertion) : list Op :=
  map (fun '(msg, src, c) => OpCheck msg src c) items.

(** The tasks a run of [REQUIRE]s leaves, given the flag it starts from. *)
Fixpoint require_tasks (failed : bool) (items : list Assertion) : list Task :=
  match items with
  | [] => []
  | (msg, src, c) :: rest =>
      (if failed then Task_Build_norun msg src else Task_Build msg src c)
        :: require_tasks (failed || negb c) rest
  end.

Definition condition_of (a : Assertion) : bool := a.2.

Definition task_with_result (a : Assertion) : Task :=
  let '(msg, src, c) := a in Task_Build msg src c.

Definition task_without_result (a : Assertion) : Task :=
  let '(msg, src, _) := a in Task_Build_norun msg src.

(** A [REQUIRE] or [CHECK] whose condition holds. *)
Definition passing_record (op : Op) : bool :=
  match op with
  | OpRequire _ _ c | OpCheck _ _ c => c
  | _ => false
  end.


(** What [Segment::Check] returns once an empty section was appended. *)
Definition after_empty_section (r : result Outcome.t) : result Outcome.t :=
  match r with
  | Ok Outcome.Passed => Ok Outcome.Failed
  | _ => r
  end.

(** Each entry of the stack points to a child of the entry below it. *)
Fixpoint nested (stack : list SegmentPtr) : Prop :=
  match stack with
  | p :: rest =>
      match rest with
      | q :: _ => (exists i, p = q ++ [i]) /\ nested rest
      | [] => True
      end
  | [] => True
  end.

(** Two states that differ in the options at most. *)
Definition same_tree (a b : State) : Prop :=
  __internal_root a = __internal_root b /\
  __internal_segment_stack a = __internal_segment_stack b.

(** [local] looks at the flag and at the tasks only. *)
Definition ignores_subsegments (local : Segment -> bool) : Prop :=
  forall s i c c', m_nodes s !! i = Some (NodeSegment c) ->
    local (mkSegment (m_name s) (<[i:=NodeSegment c']> (m_nodes s)) (m_didFail s)) =
    local s.

(** More concrete states. *)
Definition skipped_state : State :=
  Eval vm_compute in state_of (run skipped_ops initial_state).

Definition passed_root_state : State :=
  Eval vm_compute in state_of (run [OpRequire "ok" src_demo true] initial_state).

Definition in_section_state : State :=
  Eval vm_compute in state_of (run [OpSection "A"] initial_state).

Definition two_sections_state : State :=
  Eval vm_compute in state_of (run [OpSection "A"; OpSection "B"] initial_state).

Definition empty_section_state : State :=
  Eval vm_compute in state_of (run [OpSection "A"; OpEndSection] initial_state).

Definition after_failure_ops : list Op :=
  [OpRequire "ok" src_demo true; OpSection "B"; OpCheck "1 == 2" src_demo false;
   OpEndSection].

Definition entered_after_failure : State :=
  Eval vm_compute in state_of (SegmentScopeManager_enter "A" failed_state).

Definition recorded_after_failure : State :=
  Eval vm_compute in state_of (run after_failure_ops entered_after_failure).

(** The number of levels of children below a node: none for a task or for
    a segment without children. *)
Fixpoint node_nesting (n : Node) : nat :=
  match n with
  | NodeTask _ => O
  | NodeSegment (mkSegment _ nodes _) =>
      foldr (fun child deepest => Nat.max (S (node_nesting child)) deepest) O nodes
  end.

Definition nesting (s : Segment) : nat := node_nesting (NodeSegment s).

(** [piece] is what child [n], rendered at [depth1], adds to the text of its
    parent: a newline and the line of a task; for a sub-segment its
    rendering between two newlines, after one more newline of padding when
    the text so far does not end with one. *)
Definition child_piece (opts : Options) (depth1 : Z) (n : Node) (piece : string) : Prop :=
  match n with
  | NodeTask t =>
      exists sub, Stringify_Task_int t depth1 = Ok sub /\ piece = NEWLINE +:+ sub
  | NodeSegment s =>
      exists sub, Stringify_Segment_int opts s depth1 = Ok sub /\
        (piece = NEWLINE +:+ sub +:+ NEWLINE \/
         piece = NEWLINE +:+ NEWLINE +:+ sub +:+ NEWLINE)
  end.

(** The children of [segment] are rendered: what [Stringify] returns is the
    segment's own text, then one piece per child, each rendered at
    [depth + 1], in the order of [m_nodes], then the reset sequence. *)
Definition renders_children (opts : Options) (segment : Segment) (depth : Z) : Prop :=
  exists outcome pieces,
    Segment_Check segment = Ok outcome /\
    Forall2 (child_piece opts (depth + 1)) (m_nodes segment) pieces /\
    Stringify_Segment_int opts segment depth =
      Ok (segment_line segment depth outcome +:+
          foldr String.append EmptyString pieces +:+ ANSI_RESET).

(** Only the segment's own text is returned. *)
Definition collapsed (opts : Options) (segment : Segment) (depth : Z) : Prop :=
  exists outcome,
    Segment_Check segment = Ok outcome /\
    Stringify_Segment_int opts segment depth =
      Ok (segment_line segment depth outcome +:+ ANSI_RESET).

(** The values for which the conversion of [detailDepth] to 16 bits changes
    nothing: [-1] up to depth 65534, and [0 .. 65535]. *)
Definition detail_in_range (detail depth : Z) : Prop :=
  (detail = -1 /\ depth < 65535) \/ 0 <= detail <= 65535.

(** A section "Outer" holding a passing section and an empty one. *)
Definition outer_ops : list Op :=
  [OpSection "Outer";
   OpSection "A"; OpRequire "ok" src_demo true; OpEndSection;
   OpSection "B"; OpEndSection;
   OpEndSection; OpGenerateReport].

Definition outer_segment : Segment :=
  mkSegment "Outer"
    [NodeSegment passed_segment; NodeSegment (mkSegment "B" [] false)] false.

Definition outer_state : State :=
  Eval vm_compute in state_of (run outer_ops initial_state).

Definition report_of (r : result string) : string :=
  match r with Ok report => report | Abort _ => EmptyString end.

Definition outer_report : string :=
  Eval vm_compute in report_of (GenerateReport outer_state).

(** * Properties *)

Lemma Outcome_eqb_eq (a b : Outcome.t) : Outcome.eqb a b = true <-> a = b.
Proof. destruct a, b; simpl; split; congruence. Qed.

(** ** Outcome aggregation *)

Lemma Node_Check_segment (s : Segment) : Node_Check (NodeSegment s) = Segment_Check s.
Proof. reflexivity. Qed.

Lemma Check_loop_outcomes (check : Node -> result Outcome.t) nodes outs :
  Forall2 (fun n o => check n = Ok o) nodes outs ->
  forall allPassed allAreNone,
    Check_loop check nodes allPassed allAreNone =
    Ok (if has Outcome.Failed outs then inl Outcome.Failed
        else inr (allPassed && all_are Outcome.Passed outs,
                  allAreNone && all_are Outcome.None outs)).
Proof.
  induction 1 as [|n o nodes outs Hn _ IH]; intros a b; simpl.
  - by rewrite !andb_true_r.
  - rewrite Hn. simpl. destruct o; simpl; try reflexivity.
    + rewrite IH. destruct (has _ outs); [done|]. by rewrite andb_false_r.
    + rewrite IH. destruct (has _ outs); [done|]. by rewrite andb_false_r.
Qed.

Lemma Segment_Check_with_outcomes (check : Node -> result Outcome.t) s outs :
  Forall2 (fun n o => check n = Ok o) (m_nodes s) outs ->
  Segment_Check_with check s = Ok (aggregate outs).
Proof.
  destruct s as [name nodes flag]. simpl. intros H.
  destruct H as [|n o nodes outs Hn H]; [reflexivity|].
  pose proof (Check_loop_outcomes check (n :: nodes) (o :: outs)
                (List.Forall2_cons _ _ Hn H) true true) as E.
  change (length (n :: nodes) =? 0)%nat with false. cbv iota.
  rewrite E. unfold aggregate.
  generalize (has Outcome.Failed (o :: outs)) (all_are Outcome.Passed (o :: outs))
             (all_are Outcome.None (o :: outs)).
  by intros [] [] [].
Qed.

Lemma Forall_Ok_outcomes (check : Node -> result Outcome.t) nodes :
  Forall (fun n => is_Ok (check n)) nodes ->
  exists outs, Forall2 (fun n o => check n = Ok o) nodes outs.
Proof.
  induction 1 as [|n nodes [o Ho] _ [outs IH]].
  - exists []. constructor.
  - exists (o :: outs). by constructor.
Qed.

(** [Check] always returns: the assertion at its end cannot fail. *)
Lemma Segment_Check_total (s : Segment) : is_Ok (Segment_Check s).
Proof.
  induction s using Segment_induction
    with (Q := fun n => is_Ok (Node_Check n)).
  - by eexists.
  - exact IHs.
  - destruct (Forall_Ok_outcomes Node_Check nodes H) as [outs Houts].
    eexists. by apply (Segment_Check_with_outcomes Node_Check (mkSegment name nodes didFail) outs).
Qed.

Lemma Node_Check_total (n : Node) : is_Ok (Node_Check n).
Proof. destruct n; [by eexists | apply Segment_Check_total]. Qed.

Lemma child_outcomes_exist (s : Segment) :
  exists outs, Forall2 (fun n o => Node_Check n = Ok o) (m_nodes s) outs.
Proof.
  apply Forall_Ok_outcomes, Forall_forall. intros n _. apply Node_Check_total.
Qed.

Lemma Segment_Check_aggregate (s : Segment) outs :
  Forall2 (fun n o => Node_Check n = Ok o) (m_nodes s) outs ->
  Segment_Check s = Ok (aggregate outs).
Proof. apply Segment_Check_with_outcomes. Qed.

Lemma outcomes_has (check : Node -> result Outcome.t) nodes outs o :
  Forall2 (fun n o => check n = Ok o) nodes outs ->
  has o outs = true <-> exists n, n ∈ nodes /\ check n = Ok o.
Proof.
  induction 1 as [|n o' nodes outs Hn _ IH]; simpl.
  - split; [done|]. intros (n & Hin & _). by apply elem_of_nil in Hin.
  - rewrite orb_true_iff, IH, Outcome_eqb_eq. split.
    + intros [->|(m & Hm & Hc)]; [exists n | exists m]; split; auto; constructor; done.
    + intros (m & Hm & Hc). apply elem_of_cons in Hm as [->|Hm].
      * left. congruence.
      * right. eauto.
Qed.

Lemma outcomes_all_are (check : Node -> result Outcome.t) nodes outs o :
  Forall2 (fun n o => check n = Ok o) nodes outs ->
  all_are o outs = true <-> forall n, n ∈ nodes -> check n = Ok o.
Proof.
  induction 1 as [|n o' nodes outs Hn _ IH]; simpl.
  - split; [|done]. intros _ n Hin. by apply elem_of_nil in Hin.
  - rewrite andb_true_iff, IH, Outcome_eqb_eq. split.
    + intros [-> Hall] m Hm. apply elem_of_cons in Hm as [->|Hm]; auto.
    + intros Hall. split.
      * assert (check n = Ok o) as E by (apply Hall; constructor). congruence.
      * intros m Hm. apply Hall. by constructor.
Qed.

Lemma Segment_Check_failed_child (s : Segment) (n : Node) :
  n ∈ m_nodes s -> Node_Check n = Ok Outcome.Failed ->
  Segment_Check s = Ok Outcome.Failed.
Proof.
  intros Hin Hn. destruct (child_outcomes_exist s) as [outs Houts].
  rewrite (Segment_Check_aggregate s outs Houts).
  assert (has Outcome.Failed outs = true) as Hf
    by (apply (outcomes_has Node_Check (m_nodes s)); eauto).
  unfold aggregate. rewrite Hf. destruct outs; [discriminate | reflexivity].
Qed.

Lemma Segment_Check_mixed (s : Segment) :
  mixed_state s -> Segment_Check s = Ok Outcome.Failed.
Proof.
  intros ((n1 & Hin1 & Hp) & (n2 & Hin2 & Hn) & Hnf).
  destruct (child_outcomes_exist s) as [outs Houts].
  rewrite (Segment_Check_aggregate s outs Houts).
  assert (has Outcome.Failed outs = false) as Hf.
  { destruct (has Outcome.Failed outs) eqn:E; [|done].
    apply (outcomes_has Node_Check (m_nodes s)) in E as (m & Hm & Hc); [|done].
    by apply Hnf in Hm. }
  assert (all_are Outcome.Passed outs = false) as Hap.
  { destruct (all_are Outcome.Passed outs) eqn:E; [|done].
    pose proof (proj1 (outcomes_all_are Node_Check _ _ _ Houts) E n2 Hin2). congruence. }
  assert (all_are Outcome.None outs = false) as Han.
  { destruct (all_are Outcome.None outs) eqn:E; [|done].
    pose proof (proj1 (outcomes_all_are Node_Check _ _ _ Houts) E n1 Hin1). congruence. }
  unfold aggregate. rewrite Hf, Hap, Han.
  destruct outs; [|reflexivity].
  inversion Houts as [E0|]. rewrite <- E0 in Hin1. by apply elem_of_nil in Hin1.
Qed.

(** C1. [Segment::Check] on a segment without children returns [None]; with
    a child whose [Check] is [Failed] it returns [Failed]; with at least one
    child and every child [Passed] it returns [Passed]; with every child
    [None] it returns [None]. *)
Theorem C1_Segment_Check_cases (s : Segment) :
  (m_nodes s = [] -> Segment_Check s = Ok Outcome.None) /\
  ((exists n, n ∈ m_nodes s /\ Node_Check n = Ok Outcome.Failed) ->
     Segment_Check s = Ok Outcome.Failed) /\
  (m_nodes s <> [] ->
   (forall n, n ∈ m_nodes s -> Node_Check n = Ok Outcome.Passed) ->
     Segment_Check s = Ok Outcome.Passed) /\
  ((forall n, n ∈ m_nodes s -> Node_Check n = Ok Outcome.None) ->
     Segment_Check s = Ok Outcome.None).
Proof.
  destruct (child_outcomes_exist s) as [outs Houts].
  pose proof (Segment_Check_aggregate s outs Houts) as E.
  repeat split.
  - intros Hnil. destruct s as [name nodes flag]. simpl in Hnil. by subst nodes.
  - intros (n & Hin & Hn). by apply (Segment_Check_failed_child s n).
  - intros Hne Hall. rewrite E. unfold aggregate.
    destruct outs as [|o outs].
    { inversion Houts as [E0|]. by rewrite <- E0 in Hne. }
    assert (has Outcome.Failed (o :: outs) = false) as ->.
    { destruct (has Outcome.Failed (o :: outs)) eqn:Hf; [|done].
      apply (outcomes_has Node_Check (m_nodes s)) in Hf as (m & Hm & Hc); [|done].
      apply Hall in Hm. congruence. }
    by rewrite (proj2 (outcomes_all_are Node_Check _ _ _ Houts) Hall).
  - intros Hall. rewrite E. unfold aggregate.
    destruct outs as [|o outs]; [reflexivity|].
    assert (has Outcome.Failed (o :: outs) = false) as ->.
    { destruct (has Outcome.Failed (o :: outs)) eqn:Hf; [|done].
      apply (outcomes_has Node_Check (m_nodes s)) in Hf as (m & Hm & Hc); [|done].
      apply Hall in Hm. congruence. }
    pose proof (proj2 (outcomes_all_are Node_Check _ _ _ Houts) Hall) as Hn.
    destruct o; try discriminate Hn. simpl in *. by rewrite Hn.
Qed.

(** ** Pointers into the tree *)

Lemma deref_app (root : Segment) (p q : SegmentPtr) (s : Segment) :
  deref root p = Some s -> deref root (p ++ q) = deref s q.
Proof.
  revert root. induction p as [|i p IH]; intros root; simpl.
  - by intros [= ->].
  - destruct (m_nodes root !! i) as [[t|c]|]; try discriminate. apply IH.
Qed.

Lemma deref_store_app (root : Segment) (p r : SegmentPtr) (old new : Segment) :
  deref root p = Some old -> deref (store root p new) (p ++ r) = deref new r.
Proof.
  revert root. induction p as [|i p IH]; intros root; simpl; [done|].
  destruct (m_nodes root !! i) as [[t|c]|] eqn:E; try discriminate.
  intros H. simpl. rewrite list_lookup_insert_eq by (by eapply lookup_lt_Some).
  by apply IH.
Qed.

Lemma deref_store_same (root : Segment) (p : SegmentPtr) (old new : Segment) :
  deref root p = Some old -> deref (store root p new) p = Some new.
Proof.
  intros H. pose proof (deref_store_app root p [] old new H) as E.
  by rewrite app_nil_r in E.
Qed.

Lemma later_refl (s : Segment) : later s s.
Proof. intros p seg H. exists seg. auto. Qed.

Lemma later_trans (s1 s2 s3 : Segment) : later s1 s2 -> later s2 s3 -> later s1 s3.
Proof.
  intros H12 H23 p seg H.
  destruct (H12 p seg H) as (seg2 & H2 & Hf2 & Ht2).
  destruct (H23 p seg2 H2) as (seg3 & H3 & Hf3 & Ht3).
  exists seg3. repeat split; auto.
Qed.

Lemma store_later (root : Segment) (q : SegmentPtr) (old new : Segment) :
  deref root q = Some old -> grows old new -> later root (store root q new).
Proof.
  intros Hq (Hname & Hflag & extra & Hnodes). revert root Hq.
  induction q as [|i q IH]; intros root Hq.
  - simpl in *. injection Hq as ->. intros [|j p] seg Hp; simpl in *.
    + injection Hp as <-. exists new. repeat split; auto.
      intros k t Hk. rewrite Hnodes. by apply lookup_app_l_Some.
    + destruct (m_nodes old !! j) as [[t|c]|] eqn:E; try discriminate.
      exists seg. rewrite Hnodes, (lookup_app_l_Some _ _ _ _ E). auto.
  - simpl in Hq |- *.
    destruct (m_nodes root !! i) as [[t|c]|] eqn:E; try discriminate.
    specialize (IH c Hq).
    assert (i < length (m_nodes root))%nat as Hi by (by eapply lookup_lt_Some).
    intros [|j p] seg Hp; simpl in *.
    + injection Hp as <-. eexists. split; [reflexivity|]. split; [done|].
      intros k t Hk. simpl. destruct (decide (i = k)) as [->|Hne].
      * congruence.
      * by rewrite list_lookup_insert_ne.
    + destruct (decide (i = j)) as [<-|Hne].
      * rewrite E in Hp. rewrite list_lookup_insert_eq by done. by apply IH.
      * rewrite list_lookup_insert_ne by done. exists seg. auto.
Qed.

Lemma grows_AddTask (s : Segment) (t : Task) : grows s (AddTask s t).
Proof. repeat split; auto. by eexists. Qed.

Lemma grows_MarkFailed (s : Segment) : grows s (MarkFailed s).
Proof. repeat split; auto. exists []. simpl. by rewrite app_nil_r. Qed.

Lemma grows_AddSegment (s c : Segment) : grows s (AddSegment s c).1.
Proof. repeat split; auto. by eexists. Qed.

Lemma grows_trans (a b c : Segment) : grows a b -> grows b c -> grows a c.
Proof.
  intros (Hn1 & Hf1 & e1 & He1) (Hn2 & Hf2 & e2 & He2). repeat split.
  - congruence.
  - auto.
  - exists (e1 ++ e2). by rewrite He2, He1, app_assoc.
Qed.

Lemma grows_REQUIRE_body (s : Segment) msg src c : grows s (REQUIRE_body s msg src c).
Proof.
  unfold REQUIRE_body. destruct (DidFail s); [apply grows_AddTask|].
  destruct c; simpl negb; cbv iota.
  - apply grows_AddTask.
  - eapply grows_trans; [apply grows_MarkFailed | apply grows_AddTask].
Qed.

Lemma grows_CHECK_body (s : Segment) msg src c : grows s (CHECK_body s msg src c).
Proof. unfold CHECK_body. destruct (DidFail s); apply grows_AddTask. Qed.

(** ** Runs without [Reset] only let the tree grow *)

Lemma top_inv (st : State) p seg :
  top st = Ok (p, seg) ->
  exists rest, __internal_segment_stack st = p :: rest /\
               deref (__internal_root st) p = Some seg.
Proof.
  unfold top. destruct (__internal_segment_stack st) as [|q rest]; [done|].
  destruct (deref _ q) eqn:E; [|done]. intros [= <- <-]. eauto.
Qed.

Lemma top_Ok (st : State) p rest seg :
  __internal_segment_stack st = p :: rest ->
  deref (__internal_root st) p = Some seg ->
  top st = Ok (p, seg).
Proof. unfold top. by intros -> ->. Qed.

Lemma step_later (op : Op) (st st' : State) :
  is_reset op = false -> step op st = Ok st' ->
  later (__internal_root st) (__internal_root st').
Proof.
  destruct op; simpl; try discriminate; intros _.
  - unfold SegmentScopeManager_enter. destruct (top st) as [[p seg]|] eqn:E; [|done].
    apply top_inv in E as (rest & _ & Hp). simpl. intros [= <-]. simpl.
    eapply store_later; [done|]. apply (grows_AddSegment seg (Segment_Build name)).
  - unfold SegmentScopeManager_exit. case_match; [|done]. intros [= <-]. apply later_refl.
  - unfold REQUIRE. destruct (top st) as [[p seg]|] eqn:E; [|done].
    apply top_inv in E as (rest & _ & Hp). simpl. intros [= <-]. simpl.
    eapply store_later; [done|]. apply grows_REQUIRE_body.
  - unfold CHECK. destruct (top st) as [[p seg]|] eqn:E; [|done].
    apply top_inv in E as (rest & _ & Hp). simpl. intros [= <-]. simpl.
    eapply store_later; [done|]. apply grows_CHECK_body.
  - intros [= <-]. apply later_refl.
  - destruct (GenerateReport st); [|done]. intros [= <-]. apply later_refl.
Qed.

Lemma run_later (ops : list Op) (st st' : State) :
  forallb (fun op => negb (is_reset op)) ops = true -> run ops st = Ok st' ->
  later (__internal_root st) (__internal_root st').
Proof.
  revert st. induction ops as [|op ops IH]; intros st; simpl.
  - intros _ [= <-]. apply later_refl.
  - rewrite andb_true_iff, negb_true_iff. intros [Hop Hops].
    destruct (step op st) as [st1|] eqn:E; [|done]. simpl. intros Hrun.
    eapply later_trans; [by eapply step_later | by apply IH].
Qed.

(** ** Assertion recording *)

Lemma REQUIRE_at_top (st : State) p rest seg msg src c :
  __internal_segment_stack st = p :: rest ->
  deref (__internal_root st) p = Some seg ->
  REQUIRE msg src c st = Ok (set_top st p (REQUIRE_body seg msg src c)) /\
  deref (__internal_root (set_top st p (REQUIRE_body seg msg src c))) p =
    Some (REQUIRE_body seg msg src c).
Proof.
  intros Hs Hp. unfold REQUIRE. rewrite (top_Ok st p rest seg Hs Hp). simpl.
  split; [reflexivity|]. by eapply deref_store_same.
Qed.

Lemma CHECK_at_top (st : State) p rest seg msg src c :
  __internal_segment_stack st = p :: rest ->
  deref (__internal_root st) p = Some seg ->
  CHECK msg src c st = Ok (set_top st p (CHECK_body seg msg src c)) /\
  deref (__internal_root (set_top st p (CHECK_body seg msg src c))) p =
    Some (CHECK_body seg msg src c).
Proof.
  intros Hs Hp. unfold CHECK. rewrite (top_Ok st p rest seg Hs Hp). simpl.
  split; [reflexivity|]. by eapply deref_store_same.
Qed.

Lemma failed_task_stays (st st' : State) (ops : list Op) p seg k t :
  deref (__internal_root st) p = Some seg ->
  m_nodes seg !! k = Some (NodeTask t) -> Task_Check t = Outcome.Failed ->
  no_reset ops = true -> run ops st = Ok st' ->
  exists seg', deref (__internal_root st') p = Some seg' /\
               Segment_Check seg' = Ok Outcome.Failed.
Proof.
  intros Hp Hk Ht Hops Hrun.
  destruct (run_later ops st st' Hops Hrun p seg Hp) as (seg' & Hp' & _ & Htasks).
  exists seg'. split; [done|].
  apply (Segment_Check_failed_child seg' (NodeTask t)).
  - apply list_elem_of_lookup. eauto.
  - simpl. by rewrite Ht.
Qed.


(** C4 as amended. [CHECK] never raises the flag: the flag of the segment it
    records in is what it was.  While the flag is down the task carries the
    result, so after a false [CHECK] the flag is still down and
    [Segment::Check] returns [Failed]. *)
Theorem C4_CHECK_keeps_flag (st : State) (p : SegmentPtr) (rest : list SegmentPtr)
    (seg : Segment) msg src c :
  __internal_segment_stack st = p :: rest ->
  deref (__internal_root st) p = Some seg ->
  exists st1 seg1,
    CHECK msg src c st = Ok st1 /\
    deref (__internal_root st1) p = Some seg1 /\
    DidFail seg1 = DidFail seg /\
    (DidFail seg = false ->
     m_nodes seg1 = m_nodes seg ++ [NodeTask (Task_Build msg src c)] /\
     (c = false -> Segment_Check seg1 = Ok Outcome.Failed)).
Proof.
  intros Hs Hp.
  destruct (CHECK_at_top st p rest seg msg src c Hs Hp) as [HR Hd].
  eexists _, _. split; [exact HR|]. split; [exact Hd|].
  unfold CHECK_body. split; [by destruct (DidFail seg) eqn:E|].
  intros ->. split; [reflexivity|]. intros ->.
  apply (Segment_Check_failed_child _ (NodeTask (Task_Build msg src false)));
    [|reflexivity].
  simpl. apply elem_of_app. right. constructor.
Qed.

(** ** Scope entry *)

Lemma enter_at_top (st : State) p rest parent name :
  __internal_segment_stack st = p :: rest ->
  deref (__internal_root st) p = Some parent ->
  exists st',
    SegmentScopeManager_enter name st = Ok st' /\
    __internal_segment_stack st' = (p ++ [length (m_nodes parent)]) :: p :: rest /\
    __internal_root st' =
      store (__internal_root st) p (AddSegment parent (Segment_Build name)).1 /\
    __internal_curr_options st' = __internal_curr_options st.
Proof.
  intros Hs Hp. unfold SegmentScopeManager_enter.
  rewrite (top_Ok st p rest parent Hs Hp). simpl. rewrite Hs. eauto.
Qed.

(** C6. Entering a scope attaches a child whose flag is the parent's flag at
    that moment.  A child attached under a failed parent records its
    assertions as not run; a child attached under an unfailed parent starts
    unfailed, and recording in the parent afterwards, which is what raises
    the parent's flag, leaves the child as it is. *)
Theorem C6_child_flag_is_snapshot (st : State) (p : SegmentPtr)
    (rest : list SegmentPtr) (parent : Segment) (name : string) :
  __internal_segment_stack st = p :: rest ->
  deref (__internal_root st) p = Some parent ->
  let q := p ++ [length (m_nodes parent)] in
  exists st',
    SegmentScopeManager_enter name st = Ok st' /\
    __internal_segment_stack st' = q :: p :: rest /\
    deref (__internal_root st') q = Some (mkSegment name [] (DidFail parent)) /\
    (DidFail parent = true ->
     forall msg src c,
       (exists st2, REQUIRE msg src c st' = Ok st2 /\
          deref (__internal_root st2) q =
            Some (mkSegment name [NodeTask (Task_Build_norun msg src)] true)) /\
       (exists st2, CHECK msg src c st' = Ok st2 /\
          deref (__internal_root st2) q =
            Some (mkSegment name [NodeTask (Task_Build_norun msg src)] true))) /\
    (forall s s' rest' child msg src,
       __internal_segment_stack s = p :: rest' ->
       deref (__internal_root s) q = Some child ->
       REQUIRE msg src false s = Ok s' ->
       (exists parent', deref (__internal_root s') p = Some parent' /\
                        DidFail parent' = true) /\
       deref (__internal_root s') q = Some child).
Proof.
  intros Hs Hp q.
  destruct (enter_at_top st p rest parent name Hs Hp) as (st' & HE & Hs' & Hr' & _).
  assert (deref (__internal_root st') q = Some (mkSegment name [] (DidFail parent))) as Hq.
  { rewrite Hr'. unfold q. rewrite (deref_store_app _ p _ parent) by done.
    simpl. by rewrite lookup_app_r, Nat.sub_diag. }
  exists st'. split; [done|]. split; [done|]. split; [done|]. split.
  - intros Hflag msg src c. rewrite Hflag in Hq. split.
    + destruct (REQUIRE_at_top st' q (p :: rest) _ msg src c Hs' Hq) as [HR Hd].
      eexists. split; [exact HR|]. by rewrite Hd.
    + destruct (CHECK_at_top st' q (p :: rest) _ msg src c Hs' Hq) as [HR Hd].
      eexists. split; [exact HR|]. by rewrite Hd.
  - intros s s' rest' child msg src Hss Hchild HR.
    unfold REQUIRE in HR. destruct (top s) as [[p0 par]|] eqn:Etop; [|done].
    apply top_inv in Etop as (rest0 & Hs0 & Hp0). rewrite Hss in Hs0.
    injection Hs0 as <- <-. simpl in HR. injection HR as <-. simpl.
    split.
    + eexists. split; [by eapply deref_store_same|].
      unfold REQUIRE_body. by destruct (DidFail par) eqn:E.
    + unfold q in *. rewrite (deref_store_app _ p _ par) by done.
      rewrite (deref_app _ p _ par Hp0) in Hchild.
      destruct (grows_REQUIRE_body par msg src false) as (_ & _ & extra & Hn).
      simpl in Hchild |- *. rewrite Hn.
      destruct (m_nodes par !! length (m_nodes parent)) eqn:E; [|done].
      by rewrite (lookup_app_l_Some _ _ _ _ E).
Qed.

(** ** Rendering *)

Lemma Stringify_Segment_unfold (opts : Options) (segment : Segment) (depth : Z) :
  Stringify_Segment opts segment depth =
  do outcome <- Segment_Check segment;
  do out <-
    (if expands opts depth outcome
     then Stringify_nodes (fun sub => Stringify_Segment opts sub (depth + 1))
                          (depth + 1) (m_nodes segment)
                          (segment_line segment depth outcome)
     else Ok (segment_line segment depth outcome));
  Ok (out +:+ ANSI_RESET).
Proof.
  destruct segment as [name nodes flag].
  unfold Stringify_Segment; fold Stringify_Segment.
  destruct (Segment_Check (mkSegment name nodes flag)) as [o|f]; [|reflexivity].
  unfold bind at 1 3. unfold expands, segment_line, indent.
  destruct o; simpl Outcome.eqb; cbv iota; simpl negb; cbv iota;
    rewrite ?orb_false_r, ?orb_true_r, ?andb_true_l, ?andb_false_l; try reflexivity.
  all: destruct (depth <? 0); destruct (depth <? to_uint16 (detailDepth opts)); reflexivity.
Qed.

Lemma string_app_cons (a : ascii) (s t : string) :
  String a s +:+ t = String a (s +:+ t).
Proof. reflexivity. Qed.

Lemma string_app_length (s t : string) :
  String.length (s +:+ t) = (String.length s + String.length t)%nat.
Proof.
  induction s as [|a s IH]; [reflexivity|].
  rewrite string_app_cons. simpl. by rewrite IH.
Qed.

Lemma string_app_assoc (s t u : string) : (s +:+ t) +:+ u = s +:+ (t +:+ u).
Proof.
  induction s as [|a s IH]; [reflexivity|].
  rewrite !string_app_cons. by rewrite IH.
Qed.

Lemma Stringify_nodes_total (stringify : Segment -> result string) (depth1 : Z) nodes :
  Forall (fun n => match n with
                   | NodeSegment sub => is_Ok (stringify sub)
                   | NodeTask _ => True
                   end) nodes ->
  forall out, is_Ok (Stringify_nodes stringify depth1 nodes out).
Proof.
  induction 1 as [|n nodes Hn _ IH]; intros out; simpl.
  - by eexists.
  - destruct n as [t|sub]; [apply IH|].
    destruct Hn as [s ->]. simpl. apply IH.
Qed.

(** Rendering a segment always returns. *)
Lemma Stringify_Segment_total (opts : Options) (segment : Segment) :
  forall depth, is_Ok (Stringify_Segment opts segment depth).
Proof.
  induction segment using Segment_induction
    with (Q := fun n => match n with
                        | NodeSegment sub =>
                            forall depth, is_Ok (Stringify_Segment opts sub depth)
                        | NodeTask _ => True
                        end).
  - exact I.
  - exact IHsegment.
  - intros depth. rewrite Stringify_Segment_unfold.
    destruct (Segment_Check_total (mkSegment name nodes didFail)) as [o ->]. simpl bind.
    destruct (expands opts depth o); [|by eexists].
    destruct (Stringify_nodes_total
                (fun sub => Stringify_Segment opts sub (depth + 1)) (depth + 1) nodes)
      with (out := segment_line (mkSegment name nodes didFail) depth o) as [out Hout].
    + eapply Forall_impl; [exact H|]. intros [t|sub]; auto.
    + simpl m_nodes. rewrite Hout. by eexists.
Qed.

Lemma Stringify_Segment_ends_with_reset (opts : Options) segment depth out :
  Stringify_Segment opts segment depth = Ok out ->
  exists pre, out = pre +:+ ANSI_RESET.
Proof.
  rewrite Stringify_Segment_unfold.
  destruct (Segment_Check segment) as [o|]; [|done]. simpl bind.
  match goal with |- bind ?m _ = _ -> _ => destruct m as [pre|] end; [|done].
  simpl. intros [= <-]. by exists pre.
Qed.

Lemma trim_after_reset (pre : string) :
  is_Ok (match find_first_not_of (ascii_of_nat 10) (pre +:+ ANSI_RESET) with
         | Some pos => substr (pre +:+ ANSI_RESET) pos
         | None => Abort OutOfRange
         end).
Proof.
  induction pre as [|a pre IH]; [by eexists|].
  rewrite string_app_cons. simpl find_first_not_of.
  destruct (Ascii.eqb a (ascii_of_nat 10)); [|by eexists].
  destruct (find_first_not_of _ (pre +:+ ANSI_RESET)) as [k|]; [exact IH|].
  by destruct IH.
Qed.

(** [GenerateReport] always returns: the root rendering ends with the reset
    sequence, so [find_first_not_of] finds a position. *)
Lemma GenerateReport_total (st : State) : is_Ok (GenerateReport st).
Proof.
  unfold GenerateReport.
  destruct (Stringify_Segment_total (__internal_curr_options st)
              (__internal_root st) (-1)) as [report Hr].
  rewrite Hr. simpl bind.
  destruct (Stringify_Segment_ends_with_reset _ _ _ _ Hr) as [pre ->].
  apply trim_after_reset.
Qed.

(** ** The scope stack *)

Lemma pop_all_nil (stack : list SegmentPtr) : pop_all stack = [].
Proof. induction stack; auto. Qed.

Lemma later_valid (s s' : Segment) (stack : list SegmentPtr) :
  later s s' ->
  Forall (fun p => is_Some (deref s p)) stack ->
  Forall (fun p => is_Some (deref s' p)) stack.
Proof.
  intros Hl Hv. eapply Forall_impl; [exact Hv|]. intros p [seg Hp].
  destruct (Hl p seg Hp) as (seg' & Hp' & _). by exists seg'.
Qed.

Lemma stack_ok_top (st : State) :
  stack_ok st ->
  exists p rest seg, __internal_segment_stack st = p :: rest /\
                     deref (__internal_root st) p = Some seg.
Proof.
  intros [Hlast Hvalid]. destruct (__internal_segment_stack st) as [|p rest]; [done|].
  apply Forall_cons in Hvalid as [[seg Hp] _]. eauto.
Qed.

Lemma step_balanced (op : Op) (ops : list Op) (st : State) (open : nat) :
  stack_ok st -> length (__internal_segment_stack st) = S open ->
  balanced open (op :: ops) = true ->
  exists st' open',
    step op st = Ok st' /\ stack_ok st' /\
    length (__internal_segment_stack st') = S open' /\ balanced open' ops = true.
Proof.
  intros Hok Hlen Hbal.
  destruct (stack_ok_top st Hok) as (p & rest & seg & Hs & Hp).
  destruct Hok as [Hlast Hvalid].
  destruct op; simpl in Hbal |- *.
  - destruct (enter_at_top st p rest seg name Hs Hp) as (st' & HE & Hs' & Hr' & _).
    exists st', (S open). split; [done|]. split; [|split; [|done]].
    + split.
      * rewrite Hs', last_cons, <- Hs, Hlast. done.
      * rewrite Hs'. apply Forall_cons. split.
        -- rewrite Hr', (deref_store_app _ p _ seg) by done. simpl.
           rewrite lookup_app_r, Nat.sub_diag by done. by eexists.
        -- rewrite <- Hs, Hr'. eapply later_valid; [|exact Hvalid].
           eapply store_later; [done|]. apply (grows_AddSegment seg (Segment_Build name)).
    + rewrite Hs', <- Hs. simpl. by rewrite Hlen.
  - destruct open as [|open']; [done|].
    unfold SegmentScopeManager_exit. rewrite Hlen. simpl.
    eexists _, open'. split; [reflexivity|]. simpl.
    rewrite Hs in *. simpl in *. destruct rest as [|p' rest']; [done|].
    split; [|split; [congruence|done]]. split.
    + by rewrite last_cons_cons in Hlast.
    + by apply Forall_cons in Hvalid as [_ ?].
  - destruct (REQUIRE_at_top st p rest seg msg src condition Hs Hp) as [HR _].
    eexists _, open. split; [exact HR|]. simpl. repeat split; auto.
    eapply later_valid; [|exact Hvalid].
    eapply store_later; [done|]. apply grows_REQUIRE_body.
  - destruct (CHECK_at_top st p rest seg msg src condition Hs Hp) as [HR _].
    eexists _, open. split; [exact HR|]. simpl. repeat split; auto.
    eapply later_valid; [|exact Hvalid].
    eapply store_later; [done|]. apply grows_CHECK_body.
  - eexists _, open. split; [reflexivity|]. by repeat split.
  - apply andb_true_iff in Hbal as [Hopen Hbal]. apply Nat.eqb_eq in Hopen. subst open.
    eexists _, O. split; [reflexivity|]. unfold stack_ok, Reset. simpl.
    rewrite pop_all_nil. split; [split; [reflexivity|]|by split].
    apply Forall_cons. split; [by eexists | constructor].
  - destruct (GenerateReport_total st) as [report ->]. simpl.
    eexists _, open. split; [reflexivity|]. by repeat split.
Qed.

Lemma run_balanced (ops1 ops2 : list Op) (st : State) (open : nat) :
  stack_ok st -> length (__internal_segment_stack st) = S open ->
  balanced open (ops1 ++ ops2) = true ->
  exists st1 open1,
    run ops1 st = Ok st1 /\ stack_ok st1 /\
    length (__internal_segment_stack st1) = S open1 /\ balanced open1 ops2 = true.
Proof.
  revert st open. induction ops1 as [|op ops1 IH]; intros st open Hok Hlen Hbal.
  - exists st, open. split; [reflexivity|]. split; [done|]. by split.
  - destruct (step_balanced op (ops1 ++ ops2) st open Hok Hlen Hbal)
      as (st' & open' & Hstep & Hok' & Hlen' & Hbal').
    destruct (IH st' open' Hok' Hlen' Hbal') as (st1 & open1 & Hrun & ?).
    exists st1, open1. split; [|done]. simpl. by rewrite Hstep.
Qed.

Lemma initial_state_ok : stack_ok initial_state.
Proof. split; [reflexivity|]. apply Forall_cons. split; [by eexists | constructor]. Qed.

(** C9. Along every balanced sequence of calls from the initial state the
    scope stack is never empty, has the root at its bottom and a segment of
    the tree at its top; whenever a scope is left the stack holds more than
    one entry, the assertion of the destructor holds, and exactly the top
    entry is removed. *)
Theorem C9_scope_stack_invariant (ops : list Op) :
  balanced 0 ops = true ->
  forall ops1 ops2, ops = ops1 ++ ops2 ->
  exists st p rest seg,
    run ops1 initial_state = Ok st /\
    __internal_segment_stack st = p :: rest /\
    last (__internal_segment_stack st) = Some [] /\
    deref (__internal_root st) p = Some seg /\
    (forall ops3, ops2 = OpEndSection :: ops3 ->
       (1 < length (__internal_segment_stack st))%nat /\
       exists st', SegmentScopeManager_exit st = Ok st' /\
                   __internal_segment_stack st' = rest /\
                   __internal_root st' = __internal_root st).
Proof.
  intros Hbal ops1 ops2 ->.
  destruct (run_balanced ops1 ops2 initial_state 0 initial_state_ok eq_refl Hbal)
    as (st & open & Hrun & Hok & Hlen & Hbal2).
  destruct (stack_ok_top st Hok) as (p & rest & seg & Hs & Hp).
  exists st, p, rest, seg. split; [done|]. split; [done|].
  split; [apply Hok|]. split; [done|].
  intros ops3 ->. simpl in Hbal2. destruct open as [|open']; [done|].
  split; [lia|]. unfold SegmentScopeManager_exit. rewrite Hlen. simpl.
  eexists. split; [reflexivity|]. simpl. by rewrite Hs.
Qed.

(** ** Reset *)

(** C10. [Reset] does not touch the options: the [detailDepth] read after
    [Reset] is the one read before it, whatever [SetNewOptions] installed. *)
Theorem C10_Reset_keeps_options (st : State) (newOptions : Options) :
  __internal_curr_options (Reset st) = __internal_curr_options st /\
  detailDepth (__internal_curr_options (Reset (SetNewOptions newOptions st))) =
    detailDepth newOptions.
Proof. split; reflexivity. Qed.

Lemma store_name (root : Segment) (q : SegmentPtr) (old new : Segment) :
  deref root q = Some old -> m_name new = m_name old ->
  m_name (store root q new) = m_name root.
Proof.
  destruct q as [|i q]; simpl.
  - by intros [= ->].
  - by destruct (m_nodes root !! i) as [[t|c]|].
Qed.

Lemma step_root_name (op : Op) (st st' : State) :
  step op st = Ok st' ->
  m_name (__internal_root st') = m_name (__internal_root st).
Proof.
  destruct op; simpl.
  - unfold SegmentScopeManager_enter. destruct (top st) as [[p seg]|] eqn:E; [|done].
    apply top_inv in E as (rest & _ & Hp). simpl. intros [= <-]. simpl.
    by eapply store_name.
  - unfold SegmentScopeManager_exit. case_match; [|done]. by intros [= <-].
  - unfold REQUIRE. destruct (top st) as [[p seg]|] eqn:E; [|done].
    apply top_inv in E as (rest & _ & Hp). simpl. intros [= <-]. simpl.
    eapply store_name; [done|]. apply grows_REQUIRE_body.
  - unfold CHECK. destruct (top st) as [[p seg]|] eqn:E; [|done].
    apply top_inv in E as (rest & _ & Hp). simpl. intros [= <-]. simpl.
    eapply store_name; [done|]. apply grows_CHECK_body.
  - by intros [= <-].
  - by intros [= <-].
  - destruct (GenerateReport st); [|done]. by intros [= <-].
Qed.

Lemma run_root_name (ops : list Op) (st st' : State) :
  run ops st = Ok st' ->
  m_name (__internal_root st') = m_name (__internal_root st).
Proof.
  revert st. induction ops as [|op ops IH]; intros st; simpl.
  - by intros [= <-].
  - destruct (step op st) as [st1|] eqn:E; [|done]. simpl. intros Hrun.
    rewrite (IH st1 Hrun). exact (step_root_name op st st1 E).
Qed.

Lemma GenerateReport_empty_root (st : State) :
  __internal_root st = Segment_Build "" ->
  GenerateReport st = Ok (ANSI_GRAY +:+ ANSI_RESET).
Proof.
  intros Hroot. unfold GenerateReport.
  rewrite Stringify_Segment_unfold, Hroot. reflexivity.
Qed.

(** C8. After any sequence of calls from the initial state, [Reset] leaves
    the root without children and with its flag down and leaves the scope
    stack holding the root alone; [GenerateReport] then returns what it
    returns on the initial state. *)
Theorem C8_Reset_clears_state (ops : list Op) (st : State) :
  run ops initial_state = Ok st ->
  m_nodes (__internal_root (Reset st)) = [] /\
  m_segments (__internal_root (Reset st)) = [] /\
  m_tasks (__internal_root (Reset st)) = [] /\
  DidFail (__internal_root (Reset st)) = false /\
  __internal_segment_stack (Reset st) = [ [] ] /\
  __internal_root (Reset st) = __internal_root initial_state /\
  GenerateReport (Reset st) = GenerateReport initial_state /\
  GenerateReport initial_state = Ok (ANSI_GRAY +:+ ANSI_RESET).
Proof.
  intros Hrun.
  assert (__internal_root (Reset st) = Segment_Build "") as Hroot.
  { simpl. by rewrite (run_root_name ops initial_state st Hrun). }
  repeat split; try reflexivity.
  - simpl. by rewrite pop_all_nil.
  - exact Hroot.
  - rewrite (GenerateReport_empty_root _ Hroot).
    by rewrite (GenerateReport_empty_root initial_state).
Qed.

(** ** Rendering a task *)

(** ** Rendering a segment *)

Lemma expands_true_iff (opts : Options) (depth : Z) (o : Outcome.t) :
  expands opts depth o = true <->
  o = Outcome.Failed \/ (o = Outcome.Passed /\ depth < to_uint16 (detailDepth opts)).
Proof.
  unfold expands. destruct o; simpl.
  - split; [done|]. by intros [|[]].
  - split; [auto|]. intros _. by rewrite orb_true_r.
  - rewrite orb_false_r, Z.ltb_lt. split; [auto|]. by intros [|[]].
Qed.

(** * Concrete runs *)

Lemma C1_Segment_Check_cases_witness :
  Segment_Check (Segment_Build "Empty") = Ok Outcome.None /\
  Segment_Check math_segment = Ok Outcome.Failed /\
  Segment_Check passed_segment = Ok Outcome.Passed /\
  Segment_Check skipped_segment = Ok Outcome.None.
Proof.
  split; [|split; [|split]].
  - apply (proj1 (C1_Segment_Check_cases (Segment_Build "Empty"))). reflexivity.
  - apply (proj1 (proj2 (C1_Segment_Check_cases math_segment))).
    exists (NodeTask (Task_Build "1 == 2" src_demo false)).
    split; [constructor; constructor | reflexivity].
  - apply (proj1 (proj2 (proj2 (C1_Segment_Check_cases passed_segment)))).
    + discriminate.
    + intros n Hn. apply elem_of_cons in Hn as [->|Hn]; [reflexivity|].
      by apply elem_of_nil in Hn.
  - apply (proj2 (proj2 (proj2 (C1_Segment_Check_cases skipped_segment)))).
    intros n Hn. apply elem_of_cons in Hn as [->|Hn]; [reflexivity|].
    by apply elem_of_nil in Hn.
Defined.


(** C4, the claim as stated fails: after [CHECK] records a false condition
    in the fresh root the flag is down, where [REQUIRE] raises it. *)
Lemma C4_CHECK_false_flag_stays_down :
  exists st st',
    DidFail (__internal_root initial_state) = false /\
    CHECK "1 == 2" src_demo false initial_state = Ok st /\
    DidFail (__internal_root st) = false /\
    REQUIRE "1 == 2" src_demo false initial_state = Ok st' /\
    DidFail (__internal_root st') = true.
Proof. eexists _, _. repeat split; reflexivity. Qed.

Lemma C4_CHECK_keeps_flag_witness :
  exists st1 seg1,
    CHECK "1 == 2" src_demo false initial_state = Ok st1 /\
    deref (__internal_root st1) [] = Some seg1 /\
    DidFail seg1 = false /\
    Segment_Check seg1 = Ok Outcome.Failed.
Proof.
  destruct (C4_CHECK_keeps_flag initial_state [] [] (__internal_root initial_state)
              "1 == 2" src_demo false eq_refl eq_refl)
    as (st1 & seg1 & HR & Hd & Hf & Hrec).
  exists st1, seg1. split; [exact HR|]. split; [exact Hd|]. split; [exact Hf|].
  exact (proj2 (Hrec eq_refl) eq_refl).
Defined.

Lemma C6_child_flag_is_snapshot_witness :
  (exists st',
     SegmentScopeManager_enter "Nested" failed_state = Ok st' /\
     deref (__internal_root st') [1%nat] = Some (mkSegment "Nested" [] true) /\
     exists st2,
       REQUIRE "ok" src_demo true st' = Ok st2 /\
       deref (__internal_root st2) [1%nat] =
         Some (mkSegment "Nested" [NodeTask (Task_Build_norun "ok" src_demo)] true)) /\
  (exists st',
     SegmentScopeManager_enter "First" initial_state = Ok st' /\
     deref (__internal_root st') [0%nat] = Some (mkSegment "First" [] false)).
Proof.
  split.
  - destruct (C6_child_flag_is_snapshot failed_state [] [] (__internal_root failed_state)
                "Nested" eq_refl eq_refl) as (st' & HE & _ & Hq & Hpre & _).
    exists st'. split; [exact HE|]. split; [exact Hq|].
    destruct (proj1 (Hpre eq_refl "ok" src_demo true)) as (st2 & HR & Hd).
    exists st2. split; [exact HR | exact Hd].
  - destruct (C6_child_flag_is_snapshot initial_state [] []
                (__internal_root initial_state) "First" eq_refl eq_refl)
      as (st' & HE & _ & Hq & _).
    exists st'. split; [exact HE | exact Hq].
Defined.

Lemma C8_Reset_clears_state_witness :
  __internal_segment_stack (Reset math_state) = [ [] ] /\
  GenerateReport (Reset math_state) = GenerateReport initial_state.
Proof.
  destruct (C8_Reset_clears_state math_ops math_state eq_refl)
    as (_ & _ & _ & _ & Hs & _ & Hr & _).
  split; [exact Hs | exact Hr].
Defined.

Lemma C9_scope_stack_invariant_witness :
  exists st,
    run [OpSection "Math"; OpRequire "2 + 2 == 4" src_demo true] initial_state = Ok st /\
    last (__internal_segment_stack st) = Some [] /\
    (1 < length (__internal_segment_stack st))%nat.
Proof.
  destruct (C9_scope_stack_invariant
              [OpSection "Math"; OpRequire "2 + 2 == 4" src_demo true; OpEndSection]
              eq_refl
              [OpSection "Math"; OpRequire "2 + 2 == 4" src_demo true]
              [OpEndSection] eq_refl)
    as (st & p & rest & seg & Hrun & _ & Hlast & _ & Hexit).
  exists st. split; [exact Hrun|]. split; [exact Hlast|].
  exact (proj1 (Hexit [] eq_refl)).
Defined.

(** * Further properties of the header *)

(** ** What an aggregate outcome tells about the children *)

Lemma all_are_false (o : Outcome.t) (outs : list Outcome.t) :
  all_are o outs = false -> exists o', o' ∈ outs /\ o' <> o.
Proof.
  induction outs as [|o1 outs IH]; simpl; [done|].
  destruct (Outcome.eqb o o1) eqn:E; simpl.
  - intros H. destruct (IH H) as (o' & Hin & Hne). exists o'. split; [by constructor | done].
  - intros _. exists o1. split; [constructor|]. intros ->.
    assert (Outcome.eqb o o = true) as E' by (by apply Outcome_eqb_eq). congruence.
Qed.

Lemma outcome_has_node (nodes : list Node) (outs : list Outcome.t) (o : Outcome.t) :
  Forall2 (fun n o => Node_Check n = Ok o) nodes outs ->
  o ∈ outs -> exists n, n ∈ nodes /\ Node_Check n = Ok o.
Proof.
  induction 1 as [|n o1 nodes outs Hn _ IH]; intros Hin.
  - by apply elem_of_nil in Hin.
  - apply elem_of_cons in Hin as [->|Hin].
    + exists n. split; [constructor | done].
    + destruct (IH Hin) as (m & Hm & Hc). exists m. split; [by constructor | done].
Qed.

Lemma Segment_Check_inversion (s : Segment) :
  (Segment_Check s = Ok Outcome.Passed ->
     m_nodes s <> [] /\
     forall n, n ∈ m_nodes s -> Node_Check n = Ok Outcome.Passed) /\
  (Segment_Check s = Ok Outcome.None ->
     forall n, n ∈ m_nodes s -> Node_Check n = Ok Outcome.None) /\
  (Segment_Check s = Ok Outcome.Failed ->
     (exists n, n ∈ m_nodes s /\ Node_Check n = Ok Outcome.Failed) \/
     mixed_state s).
Proof.
  destruct (child_outcomes_exist s) as [outs Houts].
  rewrite (Segment_Check_aggregate s outs Houts). unfold aggregate.
  pose proof (outcomes_has Node_Check _ _ Outcome.Failed Houts) as HF.
  pose proof (outcomes_all_are Node_Check _ _ Outcome.Passed Houts) as HP.
  pose proof (outcomes_all_are Node_Check _ _ Outcome.None Houts) as HN.
  destruct outs as [|o outs].
  { inversion Houts as [E0|]. split; [done|]. split; [|done].
    intros _ n Hn. by apply elem_of_nil in Hn. }
  destruct (has Outcome.Failed (o :: outs)) eqn:EF.
  { split; [done|]. split; [done|]. intros _. left. by apply HF. }
  destruct (all_are Outcome.Passed (o :: outs)) eqn:EP.
  { split; [|by split]. intros _. split; [|by apply HP].
    intros E0. rewrite E0 in Houts. inversion Houts. }
  destruct (all_are Outcome.None (o :: outs)) eqn:EN.
  { split; [done|]. split; [|done]. intros _. by apply HN. }
  split; [done|]. split; [done|]. intros _. right.
  assert (forall n, n ∈ m_nodes s -> Node_Check n <> Ok Outcome.Failed) as HnoF.
  { intros n Hn Hc. assert (false = true) by (apply HF; eauto). done. }
  destruct (all_are_false _ _ EN) as (o1 & Hin1 & Hne1).
  destruct (all_are_false _ _ EP) as (o2 & Hin2 & Hne2).
  destruct (outcome_has_node _ _ _ Houts Hin1) as (n1 & Hn1 & Hc1).
  destruct (outcome_has_node _ _ _ Houts Hin2) as (n2 & Hn2 & Hc2).
  split; [|split; [|exact HnoF]].
  - exists n1. split; [done|]. destruct o1; try done. by apply HnoF in Hn1.
  - exists n2. split; [done|]. destruct o2; try done. by apply HnoF in Hn2.
Qed.

(** X1. The outcome of [Segment::Check] can be read backwards: [Passed] is
    returned only for a segment with at least one child and every child
    [Passed]; [None] only when every child is [None]; [Failed] only when a
    child is [Failed] or the children are a mix of [Passed] and [None]. *)
Theorem X1_Segment_Check_inversion (s : Segment) :
  (Segment_Check s = Ok Outcome.Passed ->
     m_nodes s <> [] /\
     forall n, n ∈ m_nodes s -> Node_Check n = Ok Outcome.Passed) /\
  (Segment_Check s = Ok Outcome.None ->
     forall n, n ∈ m_nodes s -> Node_Check n = Ok Outcome.None) /\
  (Segment_Check s = Ok Outcome.Failed ->
     (exists n, n ∈ m_nodes s /\ Node_Check n = Ok Outcome.Failed) \/
     mixed_state s).
Proof. exact (Segment_Check_inversion s). Qed.

(** ** Failure reaches the root *)

Lemma Segment_Check_failed_below (root : Segment) (p : SegmentPtr) (seg : Segment) :
  deref root p = Some seg -> Segment_Check seg = Ok Outcome.Failed ->
  Segment_Check root = Ok Outcome.Failed.
Proof.
  revert root. induction p as [|i p IH]; intros root; simpl.
  - by intros [= ->].
  - destruct (m_nodes root !! i) as [[t|c]|] eqn:E; try discriminate.
    intros Hp Hf. apply (Segment_Check_failed_child root (NodeSegment c)).
    + apply list_elem_of_lookup. eauto.
    + rewrite Node_Check_segment. by apply IH.
Qed.

(** X2. A segment whose [Check] is [Failed] makes every segment above it
    [Failed], up to the root. *)
Theorem X2_failure_propagates_up (root : Segment) (p q : SegmentPtr)
    (above seg : Segment) :
  deref root p = Some above -> deref above q = Some seg ->
  Segment_Check seg = Ok Outcome.Failed ->
  Segment_Check above = Ok Outcome.Failed /\
  Segment_Check root = Ok Outcome.Failed.
Proof.
  intros Hp Hq Hf.
  assert (Segment_Check above = Ok Outcome.Failed) as Ha
    by (by apply (Segment_Check_failed_below above q seg)).
  split; [done|]. by apply (Segment_Check_failed_below root p above).
Qed.

(** ** Outcomes and the tasks of the whole subtree *)

Lemma elem_of_tasks_of_nodes (nodes : list Node) (t : Task) :
  t ∈ concat (map tasks_of_node nodes) <->
  exists n, n ∈ nodes /\ t ∈ tasks_of_node n.
Proof.
  induction nodes as [|n nodes IH]; simpl.
  - split; [by intros ?%elem_of_nil|]. by intros (n & ?%elem_of_nil & _).
  - rewrite elem_of_app, IH. split.
    + intros [Ht|(m & Hm & Ht)]; [exists n | exists m]; split; auto; by constructor.
    + intros (m & Hm & Ht). apply elem_of_cons in Hm as [->|Hm]; eauto.
Qed.

Lemma Node_Check_subtree (n : Node) :
  ((exists t, t ∈ tasks_of_node n /\ Task_Check t = Outcome.Failed) ->
     Node_Check n = Ok Outcome.Failed) /\
  (Node_Check n = Ok Outcome.Passed ->
     tasks_of_node n <> [] /\
     forall t, t ∈ tasks_of_node n -> Task_Check t = Outcome.Passed) /\
  (Node_Check n = Ok Outcome.None ->
     forall t, t ∈ tasks_of_node n -> Task_Check t = Outcome.None).
Proof.
  induction n using Node_induction
    with (P := fun s =>
      ((exists t, t ∈ all_tasks s /\ Task_Check t = Outcome.Failed) ->
         Segment_Check s = Ok Outcome.Failed) /\
      (Segment_Check s = Ok Outcome.Passed ->
         all_tasks s <> [] /\
         forall t, t ∈ all_tasks s -> Task_Check t = Outcome.Passed) /\
      (Segment_Check s = Ok Outcome.None ->
         forall t, t ∈ all_tasks s -> Task_Check t = Outcome.None)).
  - simpl. split; [|split].
    + intros (t' & Ht & Hf). apply list_elem_of_singleton in Ht as ->. by rewrite Hf.
    + intros [= Hp]. split; [done|]. intros t' Ht.
      by apply list_elem_of_singleton in Ht as ->.
    + intros [= Hp] t' Ht. by apply list_elem_of_singleton in Ht as ->.
  - exact IHn.
  - set (s := mkSegment name nodes didFail).
    assert (all_tasks s = concat (map tasks_of_node nodes)) as -> by reflexivity.
    pose proof (Segment_Check_inversion s) as (HP & HN & _).
    rewrite Forall_forall in H.
    split; [|split].
    + intros (t & Ht & Hf). apply elem_of_tasks_of_nodes in Ht as (n & Hn & Ht).
      apply (Segment_Check_failed_child s n Hn). apply (H n Hn). eauto.
    + intros Hc. destruct (HP Hc) as [Hne Hall]. split.
      * destruct nodes as [|n nodes]; [done|]. simpl.
        assert (n ∈ n :: nodes) as Hn by constructor.
        destruct (proj1 (proj2 (H n Hn)) (Hall n Hn)) as [Hne' _].
        destruct (tasks_of_node n); [done|]. discriminate.
      * intros t Ht. apply elem_of_tasks_of_nodes in Ht as (n & Hn & Ht).
        by apply (proj1 (proj2 (H n Hn)) (Hall n Hn)).
    + intros Hc t Ht. apply elem_of_tasks_of_nodes in Ht as (n & Hn & Ht).
      by apply (proj2 (proj2 (H n Hn)) (HN Hc n Hn)).
Qed.

(** X3. The outcome of a segment speaks for every task below it, at any
    depth: one failed task anywhere makes it [Failed]; it is [Passed] only
    if there is a task below it and every task below it passed; it is
    [None] only if no task below it ran. *)
Theorem X3_outcome_of_subtree (s : Segment) :
  ((exists t, t ∈ all_tasks s /\ Task_Check t = Outcome.Failed) ->
     Segment_Check s = Ok Outcome.Failed) /\
  (Segment_Check s = Ok Outcome.Passed ->
     all_tasks s <> [] /\
     forall t, t ∈ all_tasks s -> Task_Check t = Outcome.Passed) /\
  (Segment_Check s = Ok Outcome.None ->
     forall t, t ∈ all_tasks s -> Task_Check t = Outcome.None).
Proof. exact (Node_Check_subtree (NodeSegment s)). Qed.

(** ** Properties of every segment of the tree *)

Lemma tree_all_unfold (local : Segment -> bool) (s : Segment) :
  tree_all local s = local s && forallb (node_all local) (m_nodes s).
Proof. by destruct s. Qed.

Lemma forallb_lookup {A} (g : A -> bool) (l : list A) (i : nat) (x : A) :
  forallb g l = true -> l !! i = Some x -> g x = true.
Proof.
  revert i. induction l as [|a l IH]; intros i; simpl; [done|].
  rewrite andb_true_iff. intros [Ha Hl]. destruct i as [|i]; simpl.
  - by intros [= <-].
  - by apply IH.
Qed.

Lemma forallb_insert {A} (g : A -> bool) (l : list A) (i : nat) (x : A) :
  forallb g l = true -> g x = true -> forallb g (<[i:=x]> l) = true.
Proof.
  revert i. induction l as [|a l IH]; intros i; simpl; [done|].
  rewrite andb_true_iff. intros [Ha Hl] Hx. destruct i as [|i]; simpl.
  - by rewrite Hx, Hl.
  - by rewrite Ha, IH.
Qed.

Lemma forallb_snoc {A} (g : A -> bool) (l : list A) (x : A) :
  forallb g (l ++ [x]) = forallb g l && g x.
Proof. rewrite forallb_app. simpl. by rewrite andb_true_r. Qed.

Lemma on_tasks_insert (f : Task -> bool) (nodes : list Node) (i : nat) (c c' : Segment) :
  nodes !! i = Some (NodeSegment c) ->
  forallb (on_tasks f) (<[i:=NodeSegment c']> nodes) = forallb (on_tasks f) nodes.
Proof.
  revert i. induction nodes as [|n nodes IH]; intros i; simpl; [done|].
  destruct i as [|i]; simpl.
  - by intros [= ->].
  - intros H. by rewrite IH.
Qed.

Lemma ran_unless_failed_ignores : ignores_subsegments ran_unless_failed.
Proof.
  intros s i c c' H. unfold ran_unless_failed. simpl. by erewrite on_tasks_insert.
Qed.

Lemma skipped_ignores : ignores_subsegments skipped.
Proof.
  intros s i c c' H. unfold skipped. simpl. by erewrite on_tasks_insert.
Qed.

Lemma tree_all_deref (local : Segment -> bool) (root : Segment) (p : SegmentPtr)
    (seg : Segment) :
  tree_all local root = true -> deref root p = Some seg -> tree_all local seg = true.
Proof.
  revert root. induction p as [|i p IH]; intros root; simpl.
  - by intros H [= <-].
  - rewrite tree_all_unfold, andb_true_iff. intros [_ Hall].
    destruct (m_nodes root !! i) as [[t|c]|] eqn:E; try discriminate.
    apply IH. exact (forallb_lookup _ _ _ _ Hall E).
Qed.

Lemma store_tree_all (local : Segment -> bool) (root : Segment) (q : SegmentPtr)
    (old new : Segment) :
  ignores_subsegments local ->
  tree_all local root = true -> deref root q = Some old ->
  tree_all local new = true -> tree_all local (store root q new) = true.
Proof.
  intros Hloc. revert root. induction q as [|i q IH]; intros root Hroot Hq Hnew; simpl.
  - done.
  - simpl in Hq. destruct (m_nodes root !! i) as [[t|c]|] eqn:E; try discriminate.
    rewrite tree_all_unfold, andb_true_iff in Hroot. destruct Hroot as [Hl Hall].
    rewrite tree_all_unfold. simpl m_nodes. rewrite (Hloc root i c _ E), Hl. simpl.
    apply forallb_insert; [done|]. apply IH; [|done..].
    exact (forallb_lookup _ _ _ _ Hall E).
Qed.

Lemma tree_all_AddTask (local : Segment -> bool) (s : Segment) (t : Task) :
  tree_all local s = true -> local (AddTask s t) = true ->
  tree_all local (AddTask s t) = true.
Proof.
  rewrite !tree_all_unfold, andb_true_iff. intros [_ Hall] ->. simpl.
  by rewrite forallb_snoc, Hall.
Qed.

Lemma tree_all_AddSegment (local : Segment -> bool) (s : Segment) (name : string) :
  tree_all local s = true ->
  local (AddSegment s (Segment_Build name)).1 = true ->
  local (mkSegment name [] (m_didFail s)) = true ->
  tree_all local (AddSegment s (Segment_Build name)).1 = true.
Proof.
  rewrite !tree_all_unfold, andb_true_iff. intros [_ Hall] -> Hc. simpl.
  rewrite forallb_snoc, Hall. simpl. by rewrite Hc.
Qed.

Lemma ran_unless_failed_REQUIRE (s : Segment) msg src c :
  tree_all ran_unless_failed s = true ->
  tree_all ran_unless_failed (REQUIRE_body s msg src c) = true.
Proof.
  intros H. pose proof H as H0. rewrite tree_all_unfold, andb_true_iff in H0.
  destruct H0 as [Hl Hall]. unfold ran_unless_failed in Hl.
  unfold REQUIRE_body, DidFail. destruct (m_didFail s) eqn:Ef.
  - apply tree_all_AddTask; [done|]. unfold ran_unless_failed. simpl. by rewrite Ef.
  - destruct c; simpl negb; cbv iota.
    + apply tree_all_AddTask; [done|]. unfold ran_unless_failed. simpl.
      simpl in Hl. by rewrite Ef, forallb_snoc, Hl.
    + rewrite tree_all_unfold. simpl. by rewrite forallb_snoc, Hall.
Qed.

Lemma ran_unless_failed_CHECK (s : Segment) msg src c :
  tree_all ran_unless_failed s = true ->
  tree_all ran_unless_failed (CHECK_body s msg src c) = true.
Proof.
  intros H. pose proof H as H0. rewrite tree_all_unfold, andb_true_iff in H0.
  destruct H0 as [Hl Hall]. unfold ran_unless_failed in Hl.
  unfold CHECK_body, DidFail. destruct (m_didFail s) eqn:Ef.
  - apply tree_all_AddTask; [done|]. unfold ran_unless_failed. simpl. by rewrite Ef.
  - apply tree_all_AddTask; [done|]. unfold ran_unless_failed. simpl.
    simpl in Hl. rewrite Ef, forallb_snoc, Hl. by destruct c.
Qed.

Lemma ran_unless_failed_AddSegment (s : Segment) (name : string) :
  tree_all ran_unless_failed s = true ->
  tree_all ran_unless_failed (AddSegment s (Segment_Build name)).1 = true.
Proof.
  intros H. pose proof H as H0. rewrite tree_all_unfold, andb_true_iff in H0.
  destruct H0 as [Hl Hall]. unfold ran_unless_failed in Hl.
  apply tree_all_AddSegment; [done| |].
  - unfold ran_unless_failed. simpl. rewrite forallb_snoc. simpl.
    by rewrite andb_true_r.
  - unfold ran_unless_failed. simpl. by rewrite orb_true_r.
Qed.

Lemma step_ran_unless_failed (op : Op) (st st' : State) :
  tree_all ran_unless_failed (__internal_root st) = true ->
  step op st = Ok st' ->
  tree_all ran_unless_failed (__internal_root st') = true.
Proof.
  intros Hinv. destruct op; simpl.
  - unfold SegmentScopeManager_enter. destruct (top st) as [[p seg]|] eqn:E; [|done].
    apply top_inv in E as (rest & _ & Hp). simpl. intros [= <-]. simpl.
    apply (store_tree_all _ _ p seg); [apply ran_unless_failed_ignores|done..|].
    apply ran_unless_failed_AddSegment. by eapply tree_all_deref.
  - unfold SegmentScopeManager_exit. case_match; [|done]. by intros [= <-].
  - unfold REQUIRE. destruct (top st) as [[p seg]|] eqn:E; [|done].
    apply top_inv in E as (rest & _ & Hp). simpl. intros [= <-]. simpl.
    apply (store_tree_all _ _ p seg); [apply ran_unless_failed_ignores|done..|].
    apply ran_unless_failed_REQUIRE. by eapply tree_all_deref.
  - unfold CHECK. destruct (top st) as [[p seg]|] eqn:E; [|done].
    apply top_inv in E as (rest & _ & Hp). simpl. intros [= <-]. simpl.
    apply (store_tree_all _ _ p seg); [apply ran_unless_failed_ignores|done..|].
    apply ran_unless_failed_CHECK. by eapply tree_all_deref.
  - by intros [= <-].
  - by intros [= <-].
  - destruct (GenerateReport st); [|done]. by intros [= <-].
Qed.

Lemma run_ran_unless_failed (ops : list Op) (st st' : State) :
  tree_all ran_unless_failed (__internal_root st) = true ->
  run ops st = Ok st' ->
  tree_all ran_unless_failed (__internal_root st') = true.
Proof.
  revert st. induction ops as [|op ops IH]; intros st Hinv; simpl.
  - by intros [= <-].
  - destruct (step op st) as [st1|] eqn:E; [|done]. simpl.
    apply IH. by eapply step_ran_unless_failed.
Qed.

(** X4. After any sequence of calls from the initial state, a task without
    result (one that did not run) is found only in a segment whose flag is
    raised: in a segment whose flag is down every recorded task has passed
    or failed. *)
Theorem X4_not_run_task_only_in_failed_segment (ops : list Op) (st : State)
    (p : SegmentPtr) (seg : Segment) (t : Task) :
  run ops initial_state = Ok st ->
  deref (__internal_root st) p = Some seg ->
  NodeTask t ∈ m_nodes seg ->
  Task_Check t = Outcome.None ->
  DidFail seg = true.
Proof.
  intros Hrun Hp Ht Hnone.
  assert (tree_all ran_unless_failed seg = true) as Hseg.
  { eapply tree_all_deref; [|exact Hp].
    by apply (run_ran_unless_failed ops initial_state). }
  rewrite tree_all_unfold, andb_true_iff in Hseg. destruct Hseg as [Hl _].
  unfold ran_unless_failed in Hl. unfold DidFail.
  destruct (m_didFail seg); [done|]. simpl in Hl.
  apply list_elem_of_lookup in Ht as [i Hi].
  pose proof (forallb_lookup _ _ _ _ Hl Hi) as Hf. simpl in Hf.
  by rewrite Hnone in Hf.
Qed.

(** ** A section entered after a failure *)

Lemma deref_store_below (root : Segment) (p r : SegmentPtr) (s new : Segment) :
  deref root p = Some s ->
  deref (store root (p ++ r) new) p = Some (store s r new).
Proof.
  revert root. induction p as [|i p IH]; intros root; simpl.
  - by intros [= ->].
  - destruct (m_nodes root !! i) as [[t|c]|] eqn:E; try discriminate.
    intros H. simpl. rewrite list_lookup_insert_eq by (by eapply lookup_lt_Some).
    by apply IH.
Qed.

Lemma deref_store_other (root : Segment) (p q : SegmentPtr) (old new s : Segment) :
  ~ p `prefix_of` q ->
  deref root q = Some old -> grows old new -> deref root p = Some s ->
  deref (store root q new) p = Some s.
Proof.
  intros Hnp Hq (_ & _ & extra & Hnodes). revert root p Hnp Hq.
  induction q as [|i q IH]; intros root p Hnp Hq Hp.
  - simpl in *. injection Hq as ->. destruct p as [|j p].
    + destruct Hnp. apply prefix_nil.
    + simpl in *. destruct (m_nodes old !! j) as [[t|c]|] eqn:E; try discriminate.
      by rewrite Hnodes, (lookup_app_l_Some _ _ _ _ E).
  - simpl in Hq |- *.
    destruct (m_nodes root !! i) as [[t|c]|] eqn:E; try discriminate.
    destruct p as [|j p]; [destruct Hnp; apply prefix_nil|].
    simpl in Hp |- *. destruct (decide (i = j)) as [<-|Hne].
    + rewrite E in Hp.
      rewrite list_lookup_insert_eq by (by eapply lookup_lt_Some).
      apply IH; [|done..]. intros Hpre. apply Hnp. by apply prefix_cons.
    + by rewrite list_lookup_insert_ne.
Qed.

Lemma skipped_REQUIRE (s : Segment) msg src c :
  tree_all skipped s = true ->
  REQUIRE_body s msg src c = AddTask s (Task_Build_norun msg src) /\
  tree_all skipped (REQUIRE_body s msg src c) = true.
Proof.
  intros H. pose proof H as H0. rewrite tree_all_unfold, andb_true_iff in H0.
  destruct H0 as [Hl Hall]. unfold skipped in Hl. apply andb_true_iff in Hl as [Hf Ht].
  unfold REQUIRE_body, DidFail. rewrite Hf. split; [done|].
  apply tree_all_AddTask; [done|]. unfold skipped. simpl.
  by rewrite Hf, forallb_snoc, Ht.
Qed.

Lemma skipped_CHECK (s : Segment) msg src c :
  tree_all skipped s = true ->
  CHECK_body s msg src c = AddTask s (Task_Build_norun msg src) /\
  tree_all skipped (CHECK_body s msg src c) = true.
Proof.
  intros H. pose proof H as H0. rewrite tree_all_unfold, andb_true_iff in H0.
  destruct H0 as [Hl Hall]. unfold skipped in Hl. apply andb_true_iff in Hl as [Hf Ht].
  unfold CHECK_body, DidFail. rewrite Hf. split; [done|].
  apply tree_all_AddTask; [done|]. unfold skipped. simpl.
  by rewrite Hf, forallb_snoc, Ht.
Qed.

Lemma skipped_AddSegment (s : Segment) (name : string) :
  tree_all skipped s = true ->
  tree_all skipped (AddSegment s (Segment_Build name)).1 = true.
Proof.
  intros H. pose proof H as H0. rewrite tree_all_unfold, andb_true_iff in H0.
  destruct H0 as [Hl Hall]. unfold skipped in Hl. apply andb_true_iff in Hl as [Hf Ht].
  apply tree_all_AddSegment; [done| |].
  - unfold skipped. simpl. rewrite Hf, forallb_snoc, Ht. done.
  - unfold skipped. simpl. by rewrite Hf.
Qed.

Lemma Segment_Check_all_None (s : Segment) :
  (forall n, n ∈ m_nodes s -> Node_Check n = Ok Outcome.None) ->
  Segment_Check s = Ok Outcome.None.
Proof.
  intros Hall. destruct (child_outcomes_exist s) as [outs Houts].
  rewrite (Segment_Check_aggregate s outs Houts). unfold aggregate.
  destruct outs as [|o outs]; [reflexivity|].
  assert (has Outcome.Failed (o :: outs) = false) as ->.
  { destruct (has Outcome.Failed (o :: outs)) eqn:Hf; [|done].
    apply (outcomes_has Node_Check (m_nodes s)) in Hf as (m & Hm & Hc); [|done].
    apply Hall in Hm. congruence. }
  pose proof (proj2 (outcomes_all_are Node_Check _ _ _ Houts) Hall) as Hn.
  destruct o; try discriminate Hn. simpl in *. by rewrite Hn.
Qed.

Lemma skipped_Check (s : Segment) :
  tree_all skipped s = true -> Segment_Check s = Ok Outcome.None.
Proof.
  induction s using Segment_induction
    with (Q := fun n => node_all skipped n = true ->
                        on_tasks (fun t => Outcome.eqb (Task_Check t) Outcome.None) n = true ->
                        Node_Check n = Ok Outcome.None).
  - simpl. intros _ H. apply Outcome_eqb_eq in H. by rewrite H.
  - intros Hs _. by apply IHs.
  - intros H0. rewrite tree_all_unfold, andb_true_iff in H0. unfold skipped in H0.
    simpl in H0. rewrite andb_true_iff in H0. destruct H0 as [[_ Ht] Hall].
    apply Segment_Check_all_None. simpl. intros n Hn.
    rewrite Forall_forall in H. apply list_elem_of_lookup in Hn as [i Hi].
    apply (H n); [apply list_elem_of_lookup; eauto|..].
    + exact (forallb_lookup _ _ _ _ Hall Hi).
    + exact (forallb_lookup _ _ _ _ Ht Hi).
Qed.

Lemma step_skipped_at (op : Op) (st st' : State) (p : SegmentPtr) (seg : Segment) :
  is_reset op = false -> step op st = Ok st' ->
  deref (__internal_root st) p = Some seg -> tree_all skipped seg = true ->
  exists seg', deref (__internal_root st') p = Some seg' /\
               tree_all skipped seg' = true.
Proof.
  intros Hop Hstep Hp Hsk.
  assert (forall q old new,
            deref (__internal_root st) q = Some old -> grows old new ->
            (tree_all skipped old = true -> tree_all skipped new = true) ->
            exists seg', deref (store (__internal_root st) q new) p = Some seg' /\
                         tree_all skipped seg' = true) as Hstore.
  { intros q old new Hq Hg Hnew.
    destruct (decide (p `prefix_of` q)) as [[r ->]|Hnp].
    - rewrite (deref_app _ p r seg Hp) in Hq.
      exists (store seg r new). split; [by apply deref_store_below|].
      apply (store_tree_all _ _ r old); [apply skipped_ignores|done..|].
      apply Hnew. by eapply tree_all_deref.
    - exists seg. split; [|done]. by eapply deref_store_other. }
  destruct op; simpl in Hstep; try discriminate Hop.
  - unfold SegmentScopeManager_enter in Hstep.
    destruct (top st) as [[q old]|] eqn:E; [|done].
    apply top_inv in E as (rest & _ & Hq). simpl in Hstep. injection Hstep as <-. simpl.
    apply (Hstore q old); [done|apply (grows_AddSegment old (Segment_Build name))|].
    apply skipped_AddSegment.
  - unfold SegmentScopeManager_exit in Hstep. case_match; [|done].
    injection Hstep as <-. eauto.
  - unfold REQUIRE in Hstep. destruct (top st) as [[q old]|] eqn:E; [|done].
    apply top_inv in E as (rest & _ & Hq). simpl in Hstep. injection Hstep as <-. simpl.
    apply (Hstore q old); [done|apply grows_REQUIRE_body|]. apply skipped_REQUIRE.
  - unfold CHECK in Hstep. destruct (top st) as [[q old]|] eqn:E; [|done].
    apply top_inv in E as (rest & _ & Hq). simpl in Hstep. injection Hstep as <-. simpl.
    apply (Hstore q old); [done|apply grows_CHECK_body|]. apply skipped_CHECK.
  - injection Hstep as <-. eauto.
  - destruct (GenerateReport st); [|done]. injection Hstep as <-. eauto.
Qed.

Lemma run_skipped_at (ops : list Op) (st st' : State) (p : SegmentPtr) (seg : Segment) :
  no_reset ops = true -> run ops st = Ok st' ->
  deref (__internal_root st) p = Some seg -> tree_all skipped seg = true ->
  exists seg', deref (__internal_root st') p = Some seg' /\
               tree_all skipped seg' = true.
Proof.
  revert st seg. induction ops as [|op ops IH]; intros st seg; simpl.
  - intros _ [= <-]. eauto.
  - rewrite andb_true_iff, negb_true_iff. intros [Hop Hops].
    destruct (step op st) as [st1|] eqn:E; [|done]. simpl. intros Hrun Hp Hsk.
    destruct (step_skipped_at op st st1 p seg Hop E Hp Hsk) as (seg1 & Hp1 & Hsk1).
    by apply (IH st1 seg1).
Qed.

(** X5. A section entered while the current segment's flag is raised stays
    skipped: whatever is recorded in it or in sections nested in it
    afterwards, up to the next [Reset], its [Check] is [None] and none of
    the tasks below it has run. *)
Theorem X5_section_after_failure_is_skipped (st : State) (p : SegmentPtr)
    (rest : list SegmentPtr) (parent : Segment) (name : string) (ops : list Op)
    (st1 st2 : State) :
  __internal_segment_stack st = p :: rest ->
  deref (__internal_root st) p = Some parent ->
  DidFail parent = true ->
  SegmentScopeManager_enter name st = Ok st1 ->
  no_reset ops = true -> run ops st1 = Ok st2 ->
  exists child,
    deref (__internal_root st2) (p ++ [length (m_nodes parent)]) = Some child /\
    Segment_Check child = Ok Outcome.None /\
    forall t, t ∈ all_tasks child -> Task_Check t = Outcome.None.
Proof.
  intros Hs Hp Hflag Henter Hops Hrun.
  destruct (enter_at_top st p rest parent name Hs Hp) as (st1' & HE & _ & Hr & _).
  rewrite Henter in HE. injection HE as <-.
  assert (deref (__internal_root st1) (p ++ [length (m_nodes parent)]) =
          Some (mkSegment name [] true)) as Hq.
  { rewrite Hr, (deref_store_app _ p _ parent) by done. simpl.
    rewrite lookup_app_r, Nat.sub_diag by done. simpl.
    unfold DidFail in Hflag. by rewrite Hflag. }
  destruct (run_skipped_at ops st1 st2 _ _ Hops Hrun Hq eq_refl) as (child & Hc & Hsk).
  exists child. split; [done|].
  pose proof (skipped_Check child Hsk) as Hcheck. split; [done|].
  by apply (proj2 (proj2 (Node_Check_subtree (NodeSegment child)))).
Qed.

(** ** Between two resets the tree only grows *)

Lemma extends_refl (s : Segment) : extends s s.
Proof. intros p seg H. exists seg. repeat split; auto. Qed.

Lemma extends_trans (s1 s2 s3 : Segment) : extends s1 s2 -> extends s2 s3 -> extends s1 s3.
Proof.
  intros H12 H23 p seg H.
  destruct (H12 p seg H) as (seg2 & H2 & Hn2 & Hf2 & Hl2 & Ht2).
  destruct (H23 p seg2 H2) as (seg3 & H3 & Hn3 & Hf3 & Hl3 & Ht3).
  exists seg3. repeat split; auto; [congruence | lia].
Qed.

Lemma store_extends (root : Segment) (q : SegmentPtr) (old new : Segment) :
  deref root q = Some old -> grows old new -> extends root (store root q new).
Proof.
  intros Hq (Hname & Hflag & extra & Hnodes). revert root Hq.
  induction q as [|i q IH]; intros root Hq.
  - simpl in *. injection Hq as ->. intros [|j p] seg Hp; simpl in *.
    + injection Hp as <-. exists new. repeat split; auto.
      * rewrite Hnodes, length_app. lia.
      * intros k t Hk. rewrite Hnodes. by apply lookup_app_l_Some.
    + destruct (m_nodes old !! j) as [[t|c]|] eqn:E; try discriminate.
      exists seg. rewrite Hnodes, (lookup_app_l_Some _ _ _ _ E). repeat split; auto.
  - simpl in Hq |- *.
    destruct (m_nodes root !! i) as [[t|c]|] eqn:E; try discriminate.
    specialize (IH c Hq).
    assert (i < length (m_nodes root))%nat as Hi by (by eapply lookup_lt_Some).
    intros [|j p] seg Hp; simpl in *.
    + injection Hp as <-. eexists. split; [reflexivity|]. simpl.
      split; [done|]. split; [done|]. split; [by rewrite length_insert|].
      intros k t Hk. destruct (decide (i = k)) as [->|Hne].
      * congruence.
      * by rewrite list_lookup_insert_ne.
    + destruct (decide (i = j)) as [<-|Hne].
      * rewrite E in Hp. rewrite list_lookup_insert_eq by done. by apply IH.
      * rewrite list_lookup_insert_ne by done. exists seg. repeat split; auto.
Qed.

Lemma step_extends (op : Op) (st st' : State) :
  is_reset op = false -> step op st = Ok st' ->
  extends (__internal_root st) (__internal_root st').
Proof.
  destruct op; simpl; try discriminate; intros _.
  - unfold SegmentScopeManager_enter. destruct (top st) as [[p seg]|] eqn:E; [|done].
    apply top_inv in E as (rest & _ & Hp). simpl. intros [= <-]. simpl.
    eapply store_extends; [done|]. apply (grows_AddSegment seg (Segment_Build name)).
  - unfold SegmentScopeManager_exit. case_match; [|done]. intros [= <-]. apply extends_refl.
  - unfold REQUIRE. destruct (top st) as [[p seg]|] eqn:E; [|done].
    apply top_inv in E as (rest & _ & Hp). simpl. intros [= <-]. simpl.
    eapply store_extends; [done|]. apply grows_REQUIRE_body.
  - unfold CHECK. destruct (top st) as [[p seg]|] eqn:E; [|done].
    apply top_inv in E as (rest & _ & Hp). simpl. intros [= <-]. simpl.
    eapply store_extends; [done|]. apply grows_CHECK_body.
  - intros [= <-]. apply extends_refl.
  - destruct (GenerateReport st); [|done]. intros [= <-]. apply extends_refl.
Qed.

(** X6. Between two resets the tree is append-only: after any calls without
    [Reset], every segment is still at the place it was, under the same
    name, with its flag raised if it was, with no fewer children, and with
    each task it held unchanged at the same position. *)
Theorem X6_tree_is_append_only (ops : list Op) (st st' : State) :
  no_reset ops = true -> run ops st = Ok st' ->
  extends (__internal_root st) (__internal_root st').
Proof.
  revert st. induction ops as [|op ops IH]; intros st; simpl.
  - intros _ [= <-]. apply extends_refl.
  - rewrite andb_true_iff, negb_true_iff. intros [Hop Hops].
    destruct (step op st) as [st1|] eqn:E; [|done]. simpl. intros Hrun.
    eapply extends_trans; [by eapply step_extends | by apply IH].
Qed.

(** ** Every assertion is recorded once *)

Lemma all_tasks_unfold (s : Segment) :
  all_tasks s = concat (map tasks_of_node (m_nodes s)).
Proof. by destruct s. Qed.

Lemma length_tasks_insert (nodes : list Node) (i : nat) (x y : Node) :
  nodes !! i = Some x ->
  (length (concat (map tasks_of_node (<[i:=y]> nodes))) + length (tasks_of_node x) =
   length (concat (map tasks_of_node nodes)) + length (tasks_of_node y))%nat.
Proof.
  revert i. induction nodes as [|n nodes IH]; intros i; [done|].
  destruct i as [|i]; simpl.
  - intros [= ->]. rewrite !length_app. lia.
  - intros H. specialize (IH i H). rewrite !length_app. lia.
Qed.

Lemma length_tasks_store (root : Segment) (q : SegmentPtr) (old new : Segment) :
  deref root q = Some old ->
  (length (all_tasks (store root q new)) + length (all_tasks old) =
   length (all_tasks root) + length (all_tasks new))%nat.
Proof.
  revert root. induction q as [|i q IH]; intros root; simpl.
  - intros [= ->]. lia.
  - destruct (m_nodes root !! i) as [[t|c]|] eqn:E; try discriminate.
    intros Hq. specialize (IH c Hq).
    rewrite (all_tasks_unfold root), (all_tasks_unfold (mkSegment _ _ _)). simpl m_nodes.
    pose proof (length_tasks_insert (m_nodes root) i (NodeSegment c)
                  (NodeSegment (store c q new)) E) as H.
    unfold all_tasks in *. lia.
Qed.

Lemma length_tasks_AddTask (s : Segment) (t : Task) :
  length (all_tasks (AddTask s t)) = S (length (all_tasks s)).
Proof.
  rewrite !all_tasks_unfold. simpl. rewrite map_app, concat_app, length_app. simpl. lia.
Qed.

Lemma length_tasks_MarkFailed (s : Segment) :
  length (all_tasks (MarkFailed s)) = length (all_tasks s).
Proof. by rewrite !all_tasks_unfold. Qed.

Lemma length_tasks_REQUIRE_body (s : Segment) msg src c :
  length (all_tasks (REQUIRE_body s msg src c)) = S (length (all_tasks s)).
Proof.
  unfold REQUIRE_body. destruct (DidFail s); [apply length_tasks_AddTask|].
  destruct c; simpl negb; cbv iota; rewrite length_tasks_AddTask;
    by rewrite ?length_tasks_MarkFailed.
Qed.

Lemma length_tasks_CHECK_body (s : Segment) msg src c :
  length (all_tasks (CHECK_body s msg src c)) = S (length (all_tasks s)).
Proof. unfold CHECK_body. destruct (DidFail s); apply length_tasks_AddTask. Qed.

Lemma length_tasks_AddSegment (s : Segment) (name : string) :
  length (all_tasks (AddSegment s (Segment_Build name)).1) = length (all_tasks s).
Proof.
  rewrite !all_tasks_unfold. simpl. rewrite map_app, concat_app, length_app. simpl. lia.
Qed.

Lemma step_length_tasks (op : Op) (st st' : State) :
  is_reset op = false -> step op st = Ok st' ->
  length (all_tasks (__internal_root st')) =
  (length (all_tasks (__internal_root st)) + (if is_recording op then 1 else 0))%nat.
Proof.
  destruct op; simpl; try discriminate; intros _.
  - unfold SegmentScopeManager_enter. destruct (top st) as [[p seg]|] eqn:E; [|done].
    apply top_inv in E as (rest & _ & Hp). simpl. intros [= <-]. simpl.
    pose proof (length_tasks_store _ p seg (AddSegment seg (Segment_Build name)).1 Hp) as H.
    rewrite length_tasks_AddSegment in H. simpl in H. lia.
  - unfold SegmentScopeManager_exit. case_match; [|done]. intros [= <-]. simpl. lia.
  - unfold REQUIRE. destruct (top st) as [[p seg]|] eqn:E; [|done].
    apply top_inv in E as (rest & _ & Hp). simpl. intros [= <-]. simpl.
    pose proof (length_tasks_store _ p seg (REQUIRE_body seg msg src condition) Hp) as H.
    rewrite length_tasks_REQUIRE_body in H. lia.
  - unfold CHECK. destruct (top st) as [[p seg]|] eqn:E; [|done].
    apply top_inv in E as (rest & _ & Hp). simpl. intros [= <-]. simpl.
    pose proof (length_tasks_store _ p seg (CHECK_body seg msg src condition) Hp) as H.
    rewrite length_tasks_CHECK_body in H. lia.
  - intros [= <-]. simpl. lia.
  - destruct (GenerateReport st); [|done]. intros [= <-]. simpl. lia.
Qed.

Lemma count_recordings_cons (op : Op) (ops : list Op) :
  count_recordings (op :: ops) =
  ((if is_recording op then 1 else 0) + count_recordings ops)%nat.
Proof.
  unfold count_recordings. rewrite filter_cons.
  destruct (decide (is_recording op = true)) as [->|Hn]; [reflexivity|].
  by destruct (is_recording op).
Qed.

(** X7. No assertion is lost and none is recorded twice: after calls without
    [Reset], the tree holds as many tasks more as [REQUIRE] and [CHECK] were
    called, whether they were evaluated or skipped; entering and leaving
    sections, setting options and reporting add none. *)
Theorem X7_one_task_per_assertion (ops : list Op) (st st' : State) :
  no_reset ops = true -> run ops st = Ok st' ->
  length (all_tasks (__internal_root st')) =
  (length (all_tasks (__internal_root st)) + count_recordings ops)%nat.
Proof.
  revert st. induction ops as [|op ops IH]; intros st; simpl.
  - intros _ [= <-]. unfold count_recordings. simpl. lia.
  - rewrite andb_true_iff, negb_true_iff. intros [Hop Hops].
    destruct (step op st) as [st1|] eqn:E; [|done]. simpl. intros Hrun.
    rewrite (IH st1 Hops Hrun), (step_length_tasks op st st1 Hop E).
    rewrite (count_recordings_cons op ops). lia.
Qed.

(** ** Runs of assertions in one segment *)

Lemma REQUIRE_body_shape (seg : Segment) msg src c :
  REQUIRE_body seg msg src c =
  mkSegment (m_name seg)
    (m_nodes seg ++
       [NodeTask (if DidFail seg then Task_Build_norun msg src else Task_Build msg src c)])
    (DidFail seg || negb c).
Proof. destruct seg as [name nodes []], c; reflexivity. Qed.

Lemma CHECK_body_shape (seg : Segment) msg src c :
  CHECK_body seg msg src c =
  mkSegment (m_name seg)
    (m_nodes seg ++
       [NodeTask (if DidFail seg then Task_Build_norun msg src else Task_Build msg src c)])
    (DidFail seg).
Proof. destruct seg as [name nodes []]; reflexivity. Qed.

Lemma run_requires (items : list Assertion) (st : State) (p : SegmentPtr)
    (rest : list SegmentPtr) (seg : Segment) :
  __internal_segment_stack st = p :: rest ->
  deref (__internal_root st) p = Some seg ->
  exists st',
    run (requires items) st = Ok st' /\
    __internal_segment_stack st' = __internal_segment_stack st /\
    deref (__internal_root st') p =
      Some (mkSegment (m_name seg)
              (m_nodes seg ++ map NodeTask (require_tasks (DidFail seg) items))
              (DidFail seg || existsb (fun a => negb (condition_of a)) items)).
Proof.
  revert st seg. induction items as [|[[msg src] c] items IH]; intros st seg Hs Hp.
  - exists st. simpl. rewrite app_nil_r, orb_false_r. by destruct seg.
  - destruct (REQUIRE_at_top st p rest seg msg src c Hs Hp) as [HR Hd].
    destruct (IH (set_top st p (REQUIRE_body seg msg src c)) _ Hs Hd)
      as (st' & Hrun & Hs' & Hd').
    exists st'. simpl run. rewrite HR. simpl bind. split; [exact Hrun|].
    split; [exact Hs'|]. rewrite Hd', REQUIRE_body_shape. simpl.
    change (condition_of (msg, src, c)) with c.
    by rewrite <- app_assoc, orb_assoc.
Qed.

Lemma require_tasks_failed (items : list Assertion) :
  require_tasks true items = map task_without_result items.
Proof. induction items as [|[[msg src] c] items IH]; simpl; [done|]. by rewrite IH. Qed.

(** X8. A run of [REQUIRE]s in a segment whose flag is down records the
    results up to and including the first false condition and records every
    later assertion without result; the flag is raised at the end. *)
Theorem X8_REQUIRE_stops_at_first_failure (st : State) (p : SegmentPtr)
    (rest : list SegmentPtr) (seg : Segment) (pre post : list Assertion)
    (msg : string) (src : source_location) :
  __internal_segment_stack st = p :: rest ->
  deref (__internal_root st) p = Some seg ->
  DidFail seg = false ->
  forallb condition_of pre = true ->
  exists st',
    run (requires (pre ++ (msg, src, false) :: post)) st = Ok st' /\
    deref (__internal_root st') p =
      Some (mkSegment (m_name seg)
              (m_nodes seg ++
                 map NodeTask (map task_with_result pre ++
                               Task_Build msg src false ::
                               map task_without_result post))
              true).
Proof.
  intros Hs Hp Hflag Hpre.
  destruct (run_requires (pre ++ (msg, src, false) :: post) st p rest seg Hs Hp)
    as (st' & Hrun & _ & Hd).
  exists st'. split; [exact Hrun|]. rewrite Hd, Hflag. f_equal. f_equal.
  - f_equal. f_equal. clear Hd Hrun.
    induction pre as [|[[m s] c] pre IH]; simpl.
    + by rewrite require_tasks_failed.
    + simpl in Hpre. change (condition_of (m, s, c)) with c in Hpre.
      apply andb_true_iff in Hpre as [-> Hpre]. simpl. by rewrite IH.
  - rewrite existsb_app. simpl. change (condition_of (msg, src, false)) with false.
    by rewrite orb_true_r.
Qed.

Lemma Segment_Check_all_Passed (s : Segment) :
  m_nodes s <> [] ->
  (forall n, n ∈ m_nodes s -> Node_Check n = Ok Outcome.Passed) ->
  Segment_Check s = Ok Outcome.Passed.
Proof.
  intros Hne Hall. destruct (child_outcomes_exist s) as [outs Houts].
  rewrite (Segment_Check_aggregate s outs Houts). unfold aggregate.
  destruct outs as [|o outs].
  { inversion Houts as [E0|]. by rewrite <- E0 in Hne. }
  assert (has Outcome.Failed (o :: outs) = false) as ->.
  { destruct (has Outcome.Failed (o :: outs)) eqn:Hf; [|done].
    apply (outcomes_has Node_Check (m_nodes s)) in Hf as (m & Hm & Hc); [|done].
    apply Hall in Hm. congruence. }
  by rewrite (proj2 (outcomes_all_are Node_Check _ _ _ Houts) Hall).
Qed.

Lemma run_passing_records (ops : list Op) (st : State) (p : SegmentPtr)
    (rest : list SegmentPtr) (seg : Segment) :
  __internal_segment_stack st = p :: rest ->
  deref (__internal_root st) p = Some seg ->
  DidFail seg = false ->
  (forall n, n ∈ m_nodes seg -> Node_Check n = Ok Outcome.Passed) ->
  forallb passing_record ops = true ->
  exists st' seg',
    run ops st = Ok st' /\
    __internal_segment_stack st' = __internal_segment_stack st /\
    deref (__internal_root st') p = Some seg' /\
    DidFail seg' = false /\
    length (m_nodes seg') = (length (m_nodes seg) + length ops)%nat /\
    (forall n, n ∈ m_nodes seg' -> Node_Check n = Ok Outcome.Passed).
Proof.
  revert st seg. induction ops as [|op ops IH]; intros st seg Hs Hp Hflag Hall Hops.
  - exists st, seg. simpl. repeat split; auto.
  - simpl in Hops. apply andb_true_iff in Hops as [Hop Hops].
    assert (exists st1 seg1,
              step op st = Ok st1 /\
              __internal_segment_stack st1 = __internal_segment_stack st /\
              deref (__internal_root st1) p = Some seg1 /\
              DidFail seg1 = false /\
              length (m_nodes seg1) = S (length (m_nodes seg)) /\
              (forall n, n ∈ m_nodes seg1 -> Node_Check n = Ok Outcome.Passed))
      as (st1 & seg1 & Hstep & Hs1 & Hp1 & Hf1 & Hl1 & Hall1).
    { destruct op; simpl in Hop; try discriminate Hop; subst condition; simpl.
      - destruct (REQUIRE_at_top st p rest seg msg src true Hs Hp) as [HR Hd].
        rewrite REQUIRE_body_shape, Hflag in Hd. rewrite REQUIRE_body_shape, Hflag in HR.
        eexists _, _. split; [exact HR|]. split; [done|]. split; [exact Hd|].
        split; [done|]. simpl. split; [rewrite length_app; simpl; lia|].
        intros n Hn. apply elem_of_app in Hn as [Hn|Hn]; [by apply Hall|].
        by apply list_elem_of_singleton in Hn as ->.
      - destruct (CHECK_at_top st p rest seg msg src true Hs Hp) as [HR Hd].
        rewrite CHECK_body_shape, Hflag in Hd.
        rewrite CHECK_body_shape, Hflag in HR.
        eexists _, _. split; [exact HR|]. split; [done|]. split; [exact Hd|].
        split; [done|]. simpl. split; [rewrite length_app; simpl; lia|].
        intros n Hn. apply elem_of_app in Hn as [Hn|Hn]; [by apply Hall|].
        by apply list_elem_of_singleton in Hn as ->. }
    rewrite <- Hs1 in Hs.
    destruct (IH st1 seg1 Hs Hp1 Hf1 Hall1 Hops)
      as (st' & seg' & Hrun & Hs' & Hp' & Hf' & Hl' & Hall').
    exists st', seg'. simpl run. rewrite Hstep. simpl bind.
    split; [exact Hrun|]. split; [congruence|]. split; [exact Hp'|].
    split; [exact Hf'|]. split; [simpl; lia | exact Hall'].
Qed.

(** X9. In a segment whose flag is down and whose children so far all
    passed - a section just entered, for one - any non-empty run of
    [REQUIRE]s and [CHECK]s whose conditions all hold leaves the flag down
    and makes [Segment::Check] return [Passed]. *)
Theorem X9_passing_assertions_give_Passed (ops : list Op) (st : State)
    (p : SegmentPtr) (rest : list SegmentPtr) (seg : Segment) :
  __internal_segment_stack st = p :: rest ->
  deref (__internal_root st) p = Some seg ->
  DidFail seg = false ->
  (forall n, n ∈ m_nodes seg -> Node_Check n = Ok Outcome.Passed) ->
  ops <> [] ->
  forallb passing_record ops = true ->
  exists st' seg',
    run ops st = Ok st' /\
    deref (__internal_root st') p = Some seg' /\
    DidFail seg' = false /\
    Segment_Check seg' = Ok Outcome.Passed.
Proof.
  intros Hs Hp Hflag Hall Hne Hops.
  destruct (run_passing_records ops st p rest seg Hs Hp Hflag Hall Hops)
    as (st' & seg' & Hrun & _ & Hp' & Hf' & Hl' & Hall').
  exists st', seg'. split; [done|]. split; [done|]. split; [done|].
  apply Segment_Check_all_Passed; [|done].
  destruct (m_nodes seg'); [|done]. destruct ops; [done|]. simpl in Hl'. lia.
Qed.

(** X10. [CHECK] does not short-circuit: in a segment whose flag is down a
    run of [CHECK]s records every result, also those after a false one, and
    leaves the flag down. *)
Theorem X10_CHECK_records_every_result (items : list Assertion) (st : State)
    (p : SegmentPtr) (rest : list SegmentPtr) (seg : Segment) :
  __internal_segment_stack st = p :: rest ->
  deref (__internal_root st) p = Some seg ->
  DidFail seg = false ->
  exists st',
    run (checks items) st = Ok st' /\
    deref (__internal_root st') p =
      Some (mkSegment (m_name seg)
              (m_nodes seg ++ map NodeTask (map task_with_result items)) false).
Proof.
  revert st seg. induction items as [|[[msg src] c] items IH]; intros st seg Hs Hp Hflag.
  - exists st. simpl. rewrite app_nil_r. split; [done|]. rewrite Hp.
    destruct seg. simpl in *. unfold DidFail in Hflag. simpl in Hflag. by subst.
  - destruct (CHECK_at_top st p rest seg msg src c Hs Hp) as [HR Hd].
    assert (DidFail (CHECK_body seg msg src c) = false) as Hflag'
      by (by rewrite CHECK_body_shape).
    destruct (IH (set_top st p (CHECK_body seg msg src c)) _ Hs Hd Hflag')
      as (st' & Hrun & Hd').
    exists st'. simpl run. rewrite HR. simpl bind. split; [exact Hrun|].
    rewrite Hd', CHECK_body_shape, Hflag. simpl. by rewrite <- app_assoc.
Qed.

(** ** The report *)



(** ** Reset and open sections *)

Lemma run_app (ops1 ops2 : list Op) (st : State) :
  run (ops1 ++ ops2) st = (do st1 <- run ops1 st; run ops2 st1).
Proof.
  revert st. induction ops1 as [|op ops1 IH]; intros st; simpl; [done|].
  destruct (step op st) as [st1|]; [|done]. simpl. apply IH.
Qed.

(** X13. [Reset] leaves the root alone on the scope stack, so leaving a
    section right after a [Reset] fails the assertion of the destructor,
    however many sections were open before. *)
Theorem X13_exit_after_Reset_fails (ops : list Op) (st st1 : State) :
  run ops st = Ok st1 ->
  run (ops ++ [OpReset; OpEndSection]) st = Abort AssertionFailed.
Proof.
  intros Hrun. rewrite run_app, Hrun. simpl.
  unfold SegmentScopeManager_exit. simpl. by rewrite pop_all_nil.
Qed.

(** ** An empty section *)

Lemma has_snoc (o x : Outcome.t) (outs : list Outcome.t) :
  has o (outs ++ [x]) = has o outs || Outcome.eqb o x.
Proof. unfold has. rewrite existsb_app. simpl. by rewrite orb_false_r. Qed.

Lemma all_are_snoc (o x : Outcome.t) (outs : list Outcome.t) :
  all_are o (outs ++ [x]) = all_are o outs && Outcome.eqb o x.
Proof. unfold all_are. apply forallb_snoc. Qed.

Lemma aggregate_snoc_None (outs : list Outcome.t) :
  Ok (aggregate (outs ++ [Outcome.None])) = after_empty_section (Ok (aggregate outs)).
Proof.
  destruct outs as [|o outs]; [reflexivity|].
  change ((o :: outs) ++ [Outcome.None]) with (o :: (outs ++ [Outcome.None])).
  unfold aggregate.
  change (o :: outs ++ [Outcome.None]) with ((o :: outs) ++ [Outcome.None]).
  rewrite has_snoc, !all_are_snoc. simpl Outcome.eqb.
  rewrite orb_false_r, andb_false_r, andb_true_r.
  destruct (has Outcome.Failed (o :: outs)); [reflexivity|].
  destruct (all_are Outcome.Passed (o :: outs)) eqn:EP.
  - simpl in EP. destruct o; try discriminate EP. reflexivity.
  - by destruct (all_are Outcome.None (o :: outs)).
Qed.

Lemma Segment_Check_AddSegment (parent : Segment) (name : string) :
  Segment_Check (AddSegment parent (Segment_Build name)).1 =
  after_empty_section (Segment_Check parent).
Proof.
  destruct (child_outcomes_exist parent) as [outs Houts].
  rewrite (Segment_Check_aggregate parent outs Houts), <- aggregate_snoc_None.
  apply Segment_Check_aggregate. simpl.
  apply Forall2_app; [done|]. by constructor.
Qed.

(** X14. Entering a section and leaving it at once puts the scope stack
    back and appends one empty child to the current segment.  The child's
    outcome is [None], so a segment that reported [Passed] reports [Failed]
    afterwards; a segment that reported [None] or [Failed] reports the same
    as before. *)
Theorem X14_empty_section (st : State) (p : SegmentPtr) (rest : list SegmentPtr)
    (parent : Segment) (name : string) :
  __internal_segment_stack st = p :: rest ->
  deref (__internal_root st) p = Some parent ->
  exists st' parent',
    run [OpSection name; OpEndSection] st = Ok st' /\
    __internal_segment_stack st' = __internal_segment_stack st /\
    __internal_curr_options st' = __internal_curr_options st /\
    deref (__internal_root st') p = Some parent' /\
    m_nodes parent' = m_nodes parent ++ [NodeSegment (mkSegment name [] (DidFail parent))] /\
    Segment_Check parent' = after_empty_section (Segment_Check parent).
Proof.
  intros Hs Hp.
  destruct (enter_at_top st p rest parent name Hs Hp) as (st1 & HE & Hs1 & Hr1 & Ho1).
  exists {| __internal_root := __internal_root st1;
            __internal_segment_stack := p :: rest;
            __internal_curr_options := __internal_curr_options st1 |},
         (AddSegment parent (Segment_Build name)).1.
  split.
  { simpl. rewrite HE. simpl. unfold SegmentScopeManager_exit. by rewrite Hs1. }
  simpl. split; [done|]. split; [done|]. split.
  { rewrite Hr1. by eapply deref_store_same. }
  split; [reflexivity|]. apply Segment_Check_AddSegment.
Qed.

(** ** The scope stack along any run *)

Lemma step_stack_ok (op : Op) (st st' : State) :
  stack_ok st -> step op st = Ok st' -> stack_ok st'.
Proof.
  intros Hok Hstep.
  destruct (stack_ok_top st Hok) as (p & rest & seg & Hs & Hp).
  destruct Hok as [Hlast Hvalid].
  destruct op; simpl in Hstep.
  - destruct (enter_at_top st p rest seg name Hs Hp) as (st1 & HE & Hs' & Hr' & _).
    rewrite Hstep in HE. injection HE as <-. split.
    + rewrite Hs', last_cons, <- Hs, Hlast. done.
    + rewrite Hs'. apply Forall_cons. split.
      * rewrite Hr', (deref_store_app _ p _ seg) by done. simpl.
        rewrite lookup_app_r, Nat.sub_diag by done. by eexists.
      * rewrite <- Hs, Hr'. eapply later_valid; [|exact Hvalid].
        eapply store_later; [done|]. apply (grows_AddSegment seg (Segment_Build name)).
  - unfold SegmentScopeManager_exit in Hstep. rewrite Hs in Hstep, Hlast, Hvalid.
    destruct rest as [|q rest]; [done|]. simpl in Hstep. injection Hstep as <-.
    split; simpl.
    + by rewrite last_cons_cons in Hlast.
    + by apply Forall_cons in Hvalid as [_ ?].
  - destruct (REQUIRE_at_top st p rest seg msg src condition Hs Hp) as [HR _].
    rewrite Hstep in HR. injection HR as ->. split; [done|]. simpl.
    eapply later_valid; [|exact Hvalid].
    eapply store_later; [done|]. apply grows_REQUIRE_body.
  - destruct (CHECK_at_top st p rest seg msg src condition Hs Hp) as [HR _].
    rewrite Hstep in HR. injection HR as ->. split; [done|]. simpl.
    eapply later_valid; [|exact Hvalid].
    eapply store_later; [done|]. apply grows_CHECK_body.
  - injection Hstep as <-. by split.
  - injection Hstep as <-. unfold stack_ok, Reset. simpl. rewrite pop_all_nil.
    split; [reflexivity|]. apply Forall_cons. split; [by eexists | constructor].
  - destruct (GenerateReport st); [|done]. injection Hstep as <-. by split.
Qed.



Lemma nested_depth (stack : list SegmentPtr) (p : SegmentPtr) (rest : list SegmentPtr) :
  nested stack -> last stack = Some [] -> stack = p :: rest ->
  length p = length rest.
Proof.
  revert p rest. induction stack as [|q stack IH]; intros p rest Hn Hlast; [done|].
  intros [= -> ->]. destruct rest as [|q rest].
  - simpl in Hlast. by injection Hlast as ->.
  - simpl in Hn. destruct Hn as [[i ->] Hn]. rewrite last_cons_cons in Hlast.
    rewrite length_app. simpl. rewrite (IH q rest Hn Hlast eq_refl). lia.
Qed.

Lemma step_nested (op : Op) (st st' : State) :
  nested (__internal_segment_stack st) -> step op st = Ok st' ->
  nested (__internal_segment_stack st').
Proof.
  intros Hn. destruct op; simpl.
  - unfold SegmentScopeManager_enter. destruct (top st) as [[p seg]|] eqn:E; [|done].
    apply top_inv in E as (rest & Hs & Hp). simpl. intros [= <-]. simpl.
    rewrite Hs in Hn |- *. split; [by eexists | done].
  - unfold SegmentScopeManager_exit. case_match; [|done]. intros [= <-]. simpl.
    destruct (__internal_segment_stack st) as [|p [|q rest]]; try done.
    simpl in Hn. apply Hn.
  - unfold REQUIRE. destruct (top st) as [[p seg]|]; [|done]. by intros [= <-].
  - unfold CHECK. destruct (top st) as [[p seg]|]; [|done]. by intros [= <-].
  - by intros [= <-].
  - intros [= <-]. simpl. by rewrite pop_all_nil.
  - destruct (GenerateReport st); [|done]. by intros [= <-].
Qed.

(** X16. After any sequence of calls from the initial state that returns,
    the scope stack lists the current segment and, below it, its ancestors
    one by one down to the root: every entry points to a child of the entry
    below it, and the nesting depth of the current segment is the number of
    entries below it. *)
Theorem X16_stack_is_the_ancestor_chain (ops : list Op) (st : State) :
  run ops initial_state = Ok st ->
  exists p rest,
    __internal_segment_stack st = p :: rest /\
    last (__internal_segment_stack st) = Some [] /\
    nested (__internal_segment_stack st) /\
    length p = length rest.
Proof.
  assert (forall ops st0, stack_ok st0 -> nested (__internal_segment_stack st0) ->
            run ops st0 = Ok st ->
            stack_ok st /\ nested (__internal_segment_stack st)) as H.
  { clear ops. induction ops as [|op ops IH]; intros st0 Hok Hn; simpl.
    - by intros [= <-].
    - destruct (step op st0) as [st1|] eqn:E; [|done]. simpl.
      apply IH; [by eapply step_stack_ok | by eapply step_nested]. }
  intros Hrun. destruct (H ops initial_state initial_state_ok I Hrun) as [Hok Hn].
  destruct (stack_ok_top st Hok) as (p & rest & seg & Hs & _).
  exists p, rest. split; [done|]. split; [apply Hok|]. split; [done|].
  by apply (nested_depth (__internal_segment_stack st)); [|apply Hok|].
Qed.

(** ** The line of a task shows its outcome *)

Lemma spaces_app_inj (n : nat) (s t : string) :
  spaces n +:+ s = spaces n +:+ t -> s = t.
Proof. induction n as [|n IH]; simpl; [done|]. intros [= H]. by apply IH. Qed.

(** X17. At any depth of zero or more, two tasks with different outcomes
    never render to the same line. *)
Theorem X17_task_line_shows_outcome (t1 t2 : Task) (d : Z) :
  0 <= d ->
  Stringify_Task t1 d = Stringify_Task t2 d ->
  Task_Check t1 = Task_Check t2.
Proof.
  intros Hd. unfold Stringify_Task.
  rewrite (proj2 (Z.ltb_ge d 0) Hd). cbv zeta.
  destruct t1 as [n1 s1 o1], t2 as [n2 s2 o2]. unfold Task_Check. simpl t_outcome.
  rewrite !string_app_assoc.
  destruct o1, o2; simpl Outcome.eqb; cbv iota; rewrite ?string_app_assoc;
    intros H; apply spaces_app_inj in H; try reflexivity;
    cbv [ANSI_GREEN ANSI_GRAY ANSI_RED ESC] in H;
    rewrite ?string_app_assoc, ?string_app_cons in H; discriminate H.
Qed.

(** ** Options and the recorded tree *)

Lemma same_tree_top (a b : State) : same_tree a b -> top a = top b.
Proof. intros [Hr Hs]. unfold top. by rewrite Hr, Hs. Qed.

Lemma step_same_tree (op : Op) (a b a' : State) :
  same_tree a b -> step op a = Ok a' ->
  exists b', step op b = Ok b' /\ same_tree a' b'.
Proof.
  intros Hab. pose proof (same_tree_top a b Hab) as Ht. destruct Hab as [Hr Hs].
  destruct op; simpl.
  - unfold SegmentScopeManager_enter. rewrite <- Ht.
    destruct (top a) as [[p seg]|]; [|done]. simpl. intros [= <-].
    eexists. split; [reflexivity|]. split; simpl; congruence.
  - unfold SegmentScopeManager_exit. rewrite <- Hs. case_match; [|done].
    intros [= <-]. eexists. split; [reflexivity|]. split; simpl; congruence.
  - unfold REQUIRE. rewrite <- Ht. destruct (top a) as [[p seg]|]; [|done].
    simpl. intros [= <-]. eexists. split; [reflexivity|]. split; simpl; congruence.
  - unfold CHECK. rewrite <- Ht. destruct (top a) as [[p seg]|]; [|done].
    simpl. intros [= <-]. eexists. split; [reflexivity|]. split; simpl; congruence.
  - intros [= <-]. eexists. split; [reflexivity|]. by split.
  - intros [= <-]. eexists. split; [reflexivity|]. split; simpl; congruence.
  - destruct (GenerateReport a); [|done]. intros [= <-].
    destruct (GenerateReport_total b) as [r ->]. simpl.
    eexists. split; [reflexivity|]. by split.
Qed.

(** X18. What is recorded does not depend on the reporting options: the
    same calls run from a state with other options return as well, with the
    same tree and the same scope stack. *)
Theorem X18_options_do_not_change_the_tree (ops : list Op) (st st' : State)
    (newOptions : Options) :
  run ops st = Ok st' ->
  exists st'',
    run ops (SetNewOptions newOptions st) = Ok st'' /\
    __internal_root st'' = __internal_root st' /\
    __internal_segment_stack st'' = __internal_segment_stack st'.
Proof.
  assert (forall ops a b a', same_tree a b -> run ops a = Ok a' ->
            exists b', run ops b = Ok b' /\ same_tree a' b') as H.
  { clear. induction ops as [|op ops IH]; intros a b a' Hab; simpl.
    - intros [= <-]. eauto.
    - destruct (step op a) as [a1|] eqn:E; [|done]. simpl. intros Hrun.
      destruct (step_same_tree op a b a1 Hab E) as (b1 & -> & Hab1). simpl.
      by apply (IH a1). }
  intros Hrun.
  destruct (H ops st (SetNewOptions newOptions st) st' (conj eq_refl eq_refl) Hrun)
    as (st'' & Hrun' & Hr & Hs).
  exists st''. split; [done|]. split; congruence.
Qed.

(** ** What the report shows *)

(** X19. After any sequence of calls from the initial state, if the root's
    outcome is [None] - nothing ran: the tree holds empty sections at most -
    the report is the gray escape followed by the reset sequence and
    nothing else, whatever the options. *)
Theorem X19_report_of_nothing_run (ops : list Op) (st : State) :
  run ops initial_state = Ok st ->
  Segment_Check (__internal_root st) = Ok Outcome.None ->
  GenerateReport st = Ok (ANSI_GRAY +:+ ANSI_RESET).
Proof.
  intros Hrun Hc. unfold GenerateReport.
  rewrite Stringify_Segment_unfold, Hc. simpl bind.
  unfold segment_line. rewrite (run_root_name ops initial_state st Hrun). reflexivity.
Qed.











(** * Concrete runs of the further properties *)

Lemma X1_Segment_Check_inversion_witness :
  m_nodes passed_segment <> [] /\
  (forall n, n ∈ m_nodes skipped_segment -> Node_Check n = Ok Outcome.None) /\
  ((exists n, n ∈ m_nodes math_segment /\ Node_Check n = Ok Outcome.Failed) \/
   mixed_state math_segment).
Proof.
  split; [|split].
  - exact (proj1 (proj1 (X1_Segment_Check_inversion passed_segment) eq_refl)).
  - exact (proj1 (proj2 (X1_Segment_Check_inversion skipped_segment)) eq_refl).
  - exact (proj2 (proj2 (X1_Segment_Check_inversion math_segment)) eq_refl).
Defined.

Lemma X2_failure_propagates_up_witness :
  Segment_Check (__internal_root math_state) = Ok Outcome.Failed.
Proof.
  exact (proj2 (X2_failure_propagates_up (__internal_root math_state) [] [0%nat]
                  (__internal_root math_state) math_segment eq_refl eq_refl eq_refl)).
Defined.

Lemma X3_outcome_of_subtree_witness :
  Segment_Check (__internal_root math_state) = Ok Outcome.Failed /\
  (forall t, t ∈ all_tasks passed_segment -> Task_Check t = Outcome.Passed) /\
  (forall t, t ∈ all_tasks skipped_segment -> Task_Check t = Outcome.None).
Proof.
  split; [|split].
  - apply (proj1 (X3_outcome_of_subtree (__internal_root math_state))).
    exists (Task_Build "1 == 2" src_demo false).
    split; [constructor; constructor | reflexivity].
  - exact (proj2 (proj1 (proj2 (X3_outcome_of_subtree passed_segment)) eq_refl)).
  - exact (proj2 (proj2 (X3_outcome_of_subtree skipped_segment)) eq_refl).
Defined.

Lemma X4_not_run_task_only_in_failed_segment_witness :
  DidFail skipped_segment = true.
Proof.
  apply (X4_not_run_task_only_in_failed_segment skipped_ops skipped_state [1%nat]
           skipped_segment (Task_Build_norun "ok" src_demo)).
  - reflexivity.
  - reflexivity.
  - constructor.
  - reflexivity.
Defined.

Lemma X5_section_after_failure_is_skipped_witness :
  exists child,
    deref (__internal_root recorded_after_failure) [1%nat] = Some child /\
    Segment_Check child = Ok Outcome.None.
Proof.
  destruct (X5_section_after_failure_is_skipped failed_state [] []
              (__internal_root failed_state) "A" after_failure_ops
              entered_after_failure recorded_after_failure
              eq_refl eq_refl eq_refl eq_refl eq_refl eq_refl)
    as (child & Hd & Hc & _).
  exists child. split; [exact Hd | exact Hc].
Defined.

Lemma X6_tree_is_append_only_witness :
  extends (__internal_root in_section_state) (__internal_root two_sections_state).
Proof.
  exact (X6_tree_is_append_only [OpSection "B"] in_section_state two_sections_state
           eq_refl eq_refl).
Defined.

Lemma X7_one_task_per_assertion_witness :
  length (all_tasks (__internal_root math_state)) = 3%nat.
Proof.
  exact (X7_one_task_per_assertion math_ops initial_state math_state eq_refl eq_refl).
Defined.

Lemma X8_REQUIRE_stops_at_first_failure_witness :
  exists st',
    run (requires [("a", src_demo, true); ("b", src_demo, false); ("c", src_demo, true)])
        initial_state = Ok st' /\
    deref (__internal_root st') [] =
      Some (mkSegment ""
              [NodeTask (Task_Build "a" src_demo true);
               NodeTask (Task_Build "b" src_demo false);
               NodeTask (Task_Build_norun "c" src_demo)] true).
Proof.
  exact (X8_REQUIRE_stops_at_first_failure initial_state [] []
           (__internal_root initial_state)
           [("a", src_demo, true)] [("c", src_demo, true)] "b" src_demo
           eq_refl eq_refl eq_refl eq_refl).
Defined.

Lemma X9_passing_assertions_give_Passed_witness :
  exists st' seg',
    run [OpRequire "a" src_demo true; OpCheck "b" src_demo true] in_section_state = Ok st' /\
    deref (__internal_root st') [0%nat] = Some seg' /\
    DidFail seg' = false /\
    Segment_Check seg' = Ok Outcome.Passed.
Proof.
  apply (X9_passing_assertions_give_Passed
           [OpRequire "a" src_demo true; OpCheck "b" src_demo true]
           in_section_state [0%nat] [ [] ] (mkSegment "A" [] false)).
  - reflexivity.
  - reflexivity.
  - reflexivity.
  - intros n Hn. by apply elem_of_nil in Hn.
  - discriminate.
  - reflexivity.
Defined.

Lemma X10_CHECK_records_every_result_witness :
  exists st',
    run (checks [("a", src_demo, false); ("b", src_demo, true)]) initial_state = Ok st' /\
    deref (__internal_root st') [] =
      Some (mkSegment ""
              [NodeTask (Task_Build "a" src_demo false);
               NodeTask (Task_Build "b" src_demo true)] false).
Proof.
  exact (X10_CHECK_records_every_result
           [("a", src_demo, false); ("b", src_demo, true)]
           initial_state [] [] (__internal_root initial_state)
           eq_refl eq_refl eq_refl).
Defined.

Lemma X13_exit_after_Reset_fails_witness :
  run [OpSection "A"; OpReset; OpEndSection] initial_state = Abort AssertionFailed.
Proof.
  exact (X13_exit_after_Reset_fails [OpSection "A"] initial_state in_section_state
           eq_refl).
Defined.

Lemma X14_empty_section_witness :
  exists st' parent',
    run [OpSection "Empty"; OpEndSection] passed_root_state = Ok st' /\
    deref (__internal_root st') [] = Some parent' /\
    Segment_Check (__internal_root passed_root_state) = Ok Outcome.Passed /\
    Segment_Check parent' = Ok Outcome.Failed.
Proof.
  destruct (X14_empty_section passed_root_state [] []
              (__internal_root passed_root_state) "Empty" eq_refl eq_refl)
    as (st' & parent' & Hrun & _ & _ & Hd & _ & Hc).
  exists st', parent'. split; [exact Hrun|]. split; [exact Hd|].
  split; [reflexivity | exact Hc].
Defined.


Lemma X16_stack_is_the_ancestor_chain_witness :
  exists p rest,
    __internal_segment_stack two_sections_state = p :: rest /\
    last (__internal_segment_stack two_sections_state) = Some [] /\
    nested (__internal_segment_stack two_sections_state) /\
    length p = length rest.
Proof.
  exact (X16_stack_is_the_ancestor_chain [OpSection "A"; OpSection "B"]
           two_sections_state eq_refl).
Defined.

Lemma X17_task_line_shows_outcome_witness :
  Task_Check (Task_Build "ok" src_demo true) =
  Task_Check (Task_Build "ok" (mkSource "other.cpp" 7) true).
Proof.
  apply (X17_task_line_shows_outcome (Task_Build "ok" src_demo true)
           (Task_Build "ok" (mkSource "other.cpp" 7) true) 1).
  - lia.
  - reflexivity.
Defined.

Lemma X18_options_do_not_change_the_tree_witness :
  exists st'',
    run math_ops (SetNewOptions {| detailDepth := 0 |} initial_state) = Ok st'' /\
    __internal_root st'' = __internal_root math_state /\
    __internal_segment_stack st'' = __internal_segment_stack math_state.
Proof.
  exact (X18_options_do_not_change_the_tree math_ops initial_state math_state
           {| detailDepth := 0 |} eq_refl).
Defined.

Lemma X19_report_of_nothing_run_witness :
  GenerateReport empty_section_state = Ok (ANSI_GRAY +:+ ANSI_RESET).
Proof.
  exact (X19_report_of_nothing_run [OpSection "A"; OpEndSection] empty_section_state
           eq_refl eq_refl).
Defined.


(** * The renderer with the arithmetic of [int] *)

Lemma wrap_int_small (z : Z) : INT_MIN <= z <= INT_MAX -> wrap_int z = z.
Proof.
  unfold wrap_int, INT_MIN, INT_MAX. intros Hz. rewrite Z.mod_small by lia. lia.
Qed.

Lemma wrap_int_double_overflow (d : Z) :
  1073741824 <= d <= INT_MAX -> wrap_int (d * 2) = d * 2 - 4294967296.
Proof.
  unfold wrap_int, INT_MIN, INT_MAX. intros Hd.
  replace (d * 2 - -2147483648) with ((d * 2 - 2147483648) + 1 * 4294967296) by lia.
  rewrite Z_mod_plus_full, Z.mod_small by lia. lia.
Qed.

Lemma string_fill_double (d : Z) :
  0 <= d < 1073741824 ->
  string_fill (wrap_int (d * 2)) = Ok (spaces (Z.to_nat (d * 2))).
Proof.
  intros Hd. rewrite wrap_int_small by (unfold INT_MIN, INT_MAX; lia).
  unfold string_fill. by rewrite (proj2 (Z.ltb_ge (d * 2) 0)) by lia.
Qed.

Lemma string_fill_double_overflow (d : Z) :
  1073741824 <= d <= INT_MAX ->
  string_fill (wrap_int (d * 2)) = Abort LengthError.
Proof.
  intros Hd. rewrite wrap_int_double_overflow by done.
  unfold string_fill, INT_MAX in *. by rewrite (proj2 (Z.ltb_lt _ 0)) by lia.
Qed.

(** Below [2^30] the task renderer is the one computed in the integers. *)
Lemma Stringify_Task_int_exact (task : Task) (d : Z) :
  d < 1073741824 -> Stringify_Task_int task d = Ok (Stringify_Task task d).
Proof.
  intros Hd. unfold Stringify_Task_int, Stringify_Task.
  destruct (d <? 0) eqn:E; [reflexivity|]. apply Z.ltb_ge in E.
  by rewrite string_fill_double by lia.
Qed.

Lemma spaces_repeat (n : nat) :
  spaces n = string_of_list_ascii (List.repeat " "%char n).
Proof. induction n as [|n IH]; simpl; [done|]. by rewrite IH. Qed.

(** C7 as amended. At a depth below zero a task renders as the empty
    string.  At a depth [d] from zero up to, and not including, [2^30] the
    renderer returns a line that starts with [d * 2] space characters,
    followed by the colour escape; the line of a failed task contains the
    file name and the line number of its source location; the line of a
    passed or not-run task is built without them: it is the same whatever
    the source location is. *)
Theorem C7_Stringify_Task_line (task : Task) (d : Z) :
  (d < 0 -> Stringify_Task_int task d = Ok EmptyString) /\
  (0 <= d < 1073741824 ->
   exists text,
     Stringify_Task_int task d = Ok text /\
     (exists rest,
        text = string_of_list_ascii (List.repeat " "%char (Z.to_nat (d * 2)))
               +:+ (ESC +:+ rest)) /\
     (Task_Check task = Outcome.Failed ->
        contains text (file_name (t_source task)) /\
        contains text (to_decimal (line (t_source task))) /\
        contains text
          (format_location (file_name (t_source task)) (line (t_source task)))) /\
     (Task_Check task <> Outcome.Failed ->
        forall source',
          Stringify_Task_int {| t_name := t_name task; t_source := source';
                                t_outcome := t_outcome task |} d = Ok text)).
Proof.
  split.
  - intros Hd. unfold Stringify_Task_int. by rewrite (proj2 (Z.ltb_lt d 0) Hd).
  - intros [Hd0 Hd]. exists (Stringify_Task task d).
    split; [by apply Stringify_Task_int_exact|].
    split; [|split].
    + unfold Stringify_Task. rewrite (proj2 (Z.ltb_ge d 0) Hd0). cbv zeta.
      rewrite <- spaces_repeat.
      destruct (Task_Check task); simpl Outcome.eqb; cbv iota;
        unfold ANSI_GREEN, ANSI_GRAY, ANSI_RED; rewrite !string_app_assoc; by eexists.
    + intros Hf. unfold Stringify_Task. rewrite (proj2 (Z.ltb_ge d 0) Hd0), Hf.
      simpl Outcome.eqb. cbv iota zeta. unfold format_location.
      set (sp := spaces (Z.to_nat (d * 2))).
      set (file := file_name (t_source task)). set (ln := line (t_source task)).
      repeat split.
      * exists (sp +:+ ANSI_RED +:+ CROSS_MARK +:+ " " +:+ t_name task +:+ " ( at file: "),
               (", line: " +:+ to_decimal ln +:+ " )" +:+ ANSI_RESET).
        by rewrite !string_app_assoc.
      * exists (sp +:+ ANSI_RED +:+ CROSS_MARK +:+ " " +:+ t_name task
                  +:+ " ( at file: " +:+ file +:+ ", line: "),
               (" )" +:+ ANSI_RESET).
        by rewrite !string_app_assoc.
      * exists (sp +:+ ANSI_RED +:+ CROSS_MARK +:+ " " +:+ t_name task), ANSI_RESET.
        by rewrite !string_app_assoc.
    + intros Ho source'. rewrite Stringify_Task_int_exact by done. f_equal.
      unfold Stringify_Task, Task_Check in *. simpl.
      by destruct (t_outcome task).
Qed.

(** C7, the claim as stated fails: [2^30] is a depth an [int] holds, and at
    that depth no line is returned: [depth * 2] overflows and the string of
    spaces cannot be built. *)
Lemma C7_depth_overflow_throws :
  0 <= 1073741824 <= INT_MAX /\
  Stringify_Task_int (Task_Build "ok" src_demo true) 1073741824 = Abort LengthError.
Proof. split; [unfold INT_MAX; lia | reflexivity]. Qed.

Lemma C7_Stringify_Task_line_witness :
  Stringify_Task_int (Task_Build "1 == 2" src_demo false) (-1) = Ok EmptyString /\
  (exists text,
     Stringify_Task_int (Task_Build "1 == 2" src_demo false) 1 = Ok text /\
     contains text "math.cpp" /\
     contains text "12") /\
  Stringify_Task_int (Task_Build "ok" (mkSource "other.cpp" 7) true) 1 =
    Stringify_Task_int (Task_Build "ok" src_demo true) 1.
Proof.
  split; [|split].
  - apply (proj1 (C7_Stringify_Task_line (Task_Build "1 == 2" src_demo false) (-1))). lia.
  - destruct (proj2 (C7_Stringify_Task_line (Task_Build "1 == 2" src_demo false) 1)
                ltac:(lia)) as (text & Htext & _ & Hfailed & _).
    exists text. split; [exact Htext|].
    destruct (Hfailed eq_refl) as (Hfile & Hline & _). split; [exact Hfile | exact Hline].
  - destruct (proj2 (C7_Stringify_Task_line (Task_Build "ok" src_demo true) 1)
                ltac:(lia)) as (text & Htext & _ & _ & Hother).
    rewrite Htext. apply Hother. discriminate.
Defined.

Lemma nesting_unfold (s : Segment) :
  nesting s =
  foldr (fun child deepest => Nat.max (S (node_nesting child)) deepest) O (m_nodes s).
Proof. by destruct s. Qed.

Lemma nesting_child (s : Segment) (n : Node) :
  n ∈ m_nodes s -> (S (node_nesting n) <= nesting s)%nat.
Proof.
  rewrite nesting_unfold. induction (m_nodes s) as [|m nodes IH]; intros Hn.
  - by apply elem_of_nil in Hn.
  - simpl. apply elem_of_cons in Hn as [->|Hn]; [lia|]. specialize (IH Hn). lia.
Qed.

Lemma Stringify_nodes_int_exact (f_int f : Segment -> result string) (d_int d : Z)
    (nodes : list Node) :
  Forall (fun n => match n with
                   | NodeTask t => Stringify_Task_int t d_int = Ok (Stringify_Task t d)
                   | NodeSegment sub => f_int sub = f sub
                   end) nodes ->
  forall out, Stringify_nodes_int f_int d_int nodes out = Stringify_nodes f d nodes out.
Proof.
  induction 1 as [|n nodes Hn _ IH]; intros out; simpl; [done|].
  destruct n as [t|sub].
  - rewrite Hn. simpl. apply IH.
  - rewrite Hn. destruct (f sub) as [s|]; [|done]. simpl. apply IH.
Qed.

(** As long as the depths met while rendering stay below [2^30], the
    segment renderer is the one computed in the integers. *)
Lemma Stringify_Segment_int_exact (opts : Options) (segment : Segment) :
  forall depth,
    INT_MIN <= depth -> depth + Z.of_nat (nesting segment) < 1073741824 ->
    Stringify_Segment_int opts segment depth = Stringify_Segment opts segment depth.
Proof.
  induction segment using Segment_induction
    with (Q := fun n => match n with
                        | NodeSegment sub =>
                            forall depth,
                              INT_MIN <= depth ->
                              depth + Z.of_nat (nesting sub) < 1073741824 ->
                              Stringify_Segment_int opts sub depth =
                              Stringify_Segment opts sub depth
                        | NodeTask _ => True
                        end).
  - exact I.
  - exact IHsegment.
  - intros depth Hmin Hb. remember (mkSegment name nodes didFail) as s eqn:Es.
    assert (wrap_int (depth + 1) = depth + 1) as Hw
      by (apply wrap_int_small; unfold INT_MIN, INT_MAX in *; lia).
    assert (forall out,
              Stringify_nodes_int
                (fun sub => Stringify_Segment_int opts sub (wrap_int (depth + 1)))
                (wrap_int (depth + 1)) nodes out =
              Stringify_nodes (fun sub => Stringify_Segment opts sub (depth + 1))
                (depth + 1) nodes out) as Hloop.
    { apply Stringify_nodes_int_exact. rewrite Hw. apply Forall_forall. intros n Hn.
      assert (S (node_nesting n) <= nesting s)%nat as Hc
        by (apply nesting_child; by subst s).
      rewrite Forall_forall in H. specialize (H n Hn). destruct n as [t|sub].
      - apply Stringify_Task_int_exact. lia.
      - apply H; [unfold INT_MIN in *; lia|]. unfold nesting. lia. }
    subst s. unfold Stringify_Segment_int, Stringify_Segment.
    fold Stringify_Segment_int. fold Stringify_Segment.
    destruct (depth <? 0) eqn:E.
    + unfold bind at 1.
      destruct (Segment_Check (mkSegment name nodes didFail)) as [o|]; [|done].
      unfold bind at 1 3. cbv zeta. by rewrite Hloop.
    + apply Z.ltb_ge in E. rewrite string_fill_double by lia. unfold bind at 1.
      destruct (Segment_Check (mkSegment name nodes didFail)) as [o|]; [|done].
      unfold bind at 1 3. cbv zeta. by rewrite Hloop.
Qed.

Lemma Stringify_Segment_int_overflow (opts : Options) (segment : Segment) (depth : Z) :
  1073741824 <= depth <= INT_MAX ->
  Stringify_Segment_int opts segment depth = Abort LengthError.
Proof.
  intros Hd. destruct segment as [name nodes flag].
  unfold Stringify_Segment_int. fold Stringify_Segment_int.
  rewrite (proj2 (Z.ltb_ge depth 0)) by lia.
  by rewrite string_fill_double_overflow.
Qed.

(** What the loop over the children appends, child by child. *)
Lemma Stringify_nodes_pieces (opts : Options) (d : Z) (nodes : list Node) :
  Forall (fun n => match n with
                   | NodeTask t => Stringify_Task_int t d = Ok (Stringify_Task t d)
                   | NodeSegment sub =>
                       Stringify_Segment_int opts sub d = Stringify_Segment opts sub d
                   end) nodes ->
  forall acc out,
    Stringify_nodes (fun sub => Stringify_Segment opts sub d) d nodes acc = Ok out ->
    exists pieces,
      Forall2 (child_piece opts d) nodes pieces /\
      out = acc +:+ foldr String.append EmptyString pieces.
Proof.
  induction 1 as [|n nodes Hn _ IH]; intros acc out; simpl.
  - intros [= <-]. exists []. split; [constructor|].
    induction acc as [|a acc IHa]; [done|]. rewrite string_app_cons. by rewrite <- IHa.
  - destruct n as [t|sub].
    + intros Hrest. destruct (IH _ _ Hrest) as (pieces & HF & ->).
      exists ((NEWLINE +:+ Stringify_Task t d) :: pieces). split.
      * constructor; [|done]. simpl. eauto.
      * simpl. by rewrite !string_app_assoc.
    + destruct (Stringify_Segment opts sub d) as [s|] eqn:Es; [|done]. simpl.
      intros Hrest. destruct (IH _ _ Hrest) as (pieces & HF & ->).
      destruct (negb (ends_with acc NEWLINE)).
      * exists ((NEWLINE +:+ NEWLINE +:+ s +:+ NEWLINE) :: pieces). split.
        -- constructor; [|done]. simpl. exists s. rewrite Hn. auto.
        -- simpl. by rewrite !string_app_assoc.
      * exists ((NEWLINE +:+ s +:+ NEWLINE) :: pieces). split.
        -- constructor; [|done]. simpl. exists s. rewrite Hn. auto.
        -- simpl. by rewrite !string_app_assoc.
Qed.

Lemma child_pieces_length (opts : Options) (d : Z) (nodes : list Node)
    (pieces : list string) :
  Forall2 (child_piece opts d) nodes pieces ->
  (length nodes <= String.length (foldr String.append EmptyString pieces))%nat.
Proof.
  induction 1 as [|n piece nodes pieces Hn _ IH]; simpl; [lia|].
  rewrite string_app_length.
  assert (1 <= String.length piece)%nat; [|lia].
  destruct n as [t|sub]; simpl in Hn.
  - destruct Hn as (s & _ & ->). rewrite string_app_length.
    change (String.length NEWLINE) with 1%nat. lia.
  - destruct Hn as (s & _ & [-> | ->]); rewrite string_app_length;
      change (String.length NEWLINE) with 1%nat; lia.
Qed.

Lemma budget_in_range (detail depth : Z) :
  detail_in_range detail depth ->
  depth < to_uint16 detail <-> within_budget_spec detail depth.
Proof.
  unfold detail_in_range, within_budget_spec, to_uint16.
  intros [[-> Hd] | Hr].
  - change (-1 mod 65536) with 65535. split; [by left | done].
  - rewrite Z.mod_small by lia. split; [intros; right; lia|]. intros [->|[_ ?]]; lia.
Qed.

(** Whether the children are rendered, by what [expands] answers. *)
Lemma renders_by_expands (opts : Options) (segment : Segment) (depth : Z)
    (o : Outcome.t) :
  m_nodes segment <> [] ->
  -1 <= depth -> depth + Z.of_nat (nesting segment) < 1073741824 ->
  Segment_Check segment = Ok o ->
  (expands opts depth o = true -> renders_children opts segment depth) /\
  (expands opts depth o = false ->
     ~ renders_children opts segment depth /\ collapsed opts segment depth).
Proof.
  intros Hne Hd Hb Ho.
  assert (INT_MIN <= depth) as Hmin by (unfold INT_MIN; lia).
  pose proof (Stringify_Segment_int_exact opts segment depth Hmin Hb) as Hexact.
  pose proof (Stringify_Segment_unfold opts segment depth) as HS.
  rewrite Ho in HS. unfold bind at 1 in HS.
  split.
  - intros He. rewrite He in HS.
    destruct (Stringify_Segment_total opts segment depth) as [s Hs].
    rewrite Hs in HS.
    destruct (Stringify_nodes (fun sub => Stringify_Segment opts sub (depth + 1))
                (depth + 1) (m_nodes segment) (segment_line segment depth o))
      as [out|] eqn:Hn; [|done].
    simpl in HS. injection HS as ->.
    destruct (Stringify_nodes_pieces opts (depth + 1) (m_nodes segment)) with
      (acc := segment_line segment depth o) (out := out) as (pieces & HF & ->);
      [|done|].
    + apply Forall_forall. intros n Hin.
      pose proof (nesting_child segment n Hin) as Hc. destruct n as [t|sub].
      * apply Stringify_Task_int_exact. lia.
      * apply Stringify_Segment_int_exact; [unfold INT_MIN; lia|]. unfold nesting. lia.
    + exists o, pieces. split; [done|]. split; [done|].
      by rewrite Hexact, Hs, string_app_assoc.
  - intros He. rewrite He in HS. simpl in HS. split.
    + intros (o' & pieces & Ho' & HF & Hs).
      rewrite Ho in Ho'. injection Ho' as <-.
      rewrite Hexact, HS in Hs. injection Hs as Hs.
      apply child_pieces_length in HF.
      apply (f_equal String.length) in Hs. rewrite !string_app_length in Hs.
      destruct (m_nodes segment); [done|]. simpl in HF. lia.
    + exists o. by rewrite Hexact.
Qed.

(** C5 as amended. For a segment that has children, rendered at a depth
    from [-1] up with all the depths below it under [2^30], and for
    [detailDepth] equal to [-1] (at depths below 65535) or within
    [0 .. 65535]: the children are rendered, each at [depth + 1] and in
    insertion order, exactly when the segment's outcome is [Failed], or it
    is [Passed] and the depth is within the budget, where [-1] is unlimited
    and a non-negative [detailDepth] expands the depths below it.  A
    segment whose outcome is [None] is rendered as its own text only. *)
Theorem C5_children_rendered_iff (opts : Options) (segment : Segment) (depth : Z) :
  m_nodes segment <> [] ->
  -1 <= depth -> depth + Z.of_nat (nesting segment) < 1073741824 ->
  detail_in_range (detailDepth opts) depth ->
  (renders_children opts segment depth <->
     Segment_Check segment = Ok Outcome.Failed \/
     (Segment_Check segment = Ok Outcome.Passed /\
      within_budget_spec (detailDepth opts) depth)) /\
  (~ renders_children opts segment depth -> collapsed opts segment depth) /\
  (Segment_Check segment = Ok Outcome.None -> collapsed opts segment depth).
Proof.
  intros Hne Hd Hb Hrange.
  destruct (Segment_Check_total segment) as [o Ho].
  destruct (renders_by_expands opts segment depth o Hne Hd Hb Ho) as [Hyes Hno].
  pose proof (budget_in_range _ _ Hrange) as Hbudget.
  split; [|split].
  - rewrite Ho. split.
    + intros Hr. destruct (expands opts depth o) eqn:He.
      * apply expands_true_iff in He as [->|[-> ?]]; [by left|].
        right. split; [done|]. by apply Hbudget.
      * by destruct (Hno eq_refl).
    + intros H. apply Hyes, expands_true_iff.
      destruct H as [[= ->]|[[= ->] ?]]; [by left|]. right. split; [done|].
      by apply Hbudget.
  - intros Hr. destruct (expands opts depth o) eqn:He; [by destruct Hr; auto|].
    by apply Hno.
  - rewrite Ho. intros [= ->]. by apply Hno.
Qed.

(** C5, the claim as stated fails.  The section opened after a failure in
    the root holds one skipped assertion and its outcome is [None]: at
    depth 0 and with [detailDepth = -1] it is within the budget, yet its
    child is not rendered.  Outside the range the amended claim speaks of,
    a passed section is not expanded either although it is within the
    budget as the claim words it: with [detailDepth = 65536] at depth 0 and
    with [detailDepth = -1] at depth 65535; and at depth [2^30] nothing is
    rendered at all. *)
Lemma C5_skipped_segment_not_expanded :
  (exists st,
     run skipped_ops initial_state = Ok st /\
     deref (__internal_root st) [1%nat] = Some skipped_segment /\
     detailDepth (__internal_curr_options st) = -1) /\
  m_nodes skipped_segment <> [] /\
  within_budget_spec (-1) 0 /\
  ~ renders_children {| detailDepth := -1 |} skipped_segment 0 /\
  ~ (renders_children {| detailDepth := -1 |} skipped_segment 0 <->
     Segment_Check skipped_segment = Ok Outcome.Failed \/
     within_budget_spec (-1) 0) /\
  (within_budget_spec 65536 0 /\
   ~ renders_children {| detailDepth := 65536 |} passed_segment 0) /\
  (within_budget_spec (-1) 65535 /\
   ~ renders_children {| detailDepth := -1 |} passed_segment 65535) /\
  Stringify_Segment_int {| detailDepth := -1 |} passed_segment 1073741824 =
    Abort LengthError.
Proof.
  assert (~ renders_children {| detailDepth := -1 |} skipped_segment 0) as Hnot.
  { apply (renders_by_expands {| detailDepth := -1 |} skipped_segment 0 Outcome.None);
      [discriminate | lia | vm_compute; reflexivity | reflexivity | reflexivity]. }
  split; [eexists; repeat split; reflexivity|].
  split; [discriminate|]. split; [by left|]. split; [exact Hnot|].
  split; [intros [_ H]; apply Hnot, H; right; by left|].
  split; [|split].
  - split; [right; lia|].
    apply (renders_by_expands {| detailDepth := 65536 |} passed_segment 0 Outcome.Passed);
      [discriminate | lia | vm_compute; reflexivity | reflexivity | reflexivity].
  - split; [by left|].
    apply (renders_by_expands {| detailDepth := -1 |} passed_segment 65535 Outcome.Passed);
      [discriminate | lia | vm_compute; reflexivity | reflexivity | reflexivity].
  - apply Stringify_Segment_int_overflow. unfold INT_MAX. lia.
Qed.

Lemma C5_children_rendered_iff_witness :
  renders_children {| detailDepth := 0 |} math_segment 0 /\
  collapsed {| detailDepth := 0 |} passed_segment 0 /\
  collapsed {| detailDepth := -1 |} skipped_segment 0.
Proof.
  split; [|split].
  - apply (proj1 (C5_children_rendered_iff {| detailDepth := 0 |} math_segment 0
                    ltac:(discriminate) ltac:(lia) eq_refl
                    ltac:(right; simpl; lia))).
    left. reflexivity.
  - apply (proj1 (proj2 (C5_children_rendered_iff {| detailDepth := 0 |} passed_segment 0
                           ltac:(discriminate) ltac:(lia) eq_refl
                           ltac:(right; simpl; lia)))).
    intros Hr.
    apply (proj1 (C5_children_rendered_iff {| detailDepth := 0 |} passed_segment 0
                    ltac:(discriminate) ltac:(lia) eq_refl
                    ltac:(right; simpl; lia))) in Hr.
    destruct Hr as [Hr|[_ [Hr|[_ Hr]]]]; [discriminate Hr | discriminate Hr | simpl in Hr; lia].
  - apply (proj2 (proj2 (C5_children_rendered_iff {| detailDepth := -1 |}
                           skipped_segment 0
                           ltac:(discriminate) ltac:(lia) eq_refl
                           ltac:(left; simpl; lia)))).
    reflexivity.
Defined.

(** X12. Rendering a segment at a depth from [-1] up returns whenever the
    depths met below it stay under [2^30], and what it returns ends with
    the reset sequence; called with a depth from [2^30] up it returns
    nothing: the string of spaces cannot be built. *)
Theorem X12_Stringify_Segment_returns (opts : Options) (segment : Segment) (depth : Z) :
  (-1 <= depth -> depth + Z.of_nat (nesting segment) < 1073741824 ->
   exists pre, Stringify_Segment_int opts segment depth = Ok (pre +:+ ANSI_RESET)) /\
  (1073741824 <= depth <= INT_MAX ->
   Stringify_Segment_int opts segment depth = Abort LengthError).
Proof.
  split.
  - intros Hd Hb.
    rewrite Stringify_Segment_int_exact by (unfold INT_MIN; lia).
    destruct (Stringify_Segment_total opts segment depth) as [out Hout].
    destruct (Stringify_Segment_ends_with_reset _ _ _ _ Hout) as [pre ->].
    by exists pre.
  - apply Stringify_Segment_int_overflow.
Qed.

Lemma X12_Stringify_Segment_returns_witness :
  (exists pre,
     Stringify_Segment_int {| detailDepth := -1 |} math_segment 0 =
       Ok (pre +:+ ANSI_RESET)) /\
  Stringify_Segment_int {| detailDepth := -1 |} math_segment INT_MAX =
    Abort LengthError.
Proof.
  split.
  - exact (proj1 (X12_Stringify_Segment_returns {| detailDepth := -1 |} math_segment 0)
             ltac:(lia) eq_refl).
  - apply (proj2 (X12_Stringify_Segment_returns {| detailDepth := -1 |} math_segment
                    INT_MAX)).
    unfold INT_MAX. lia.
Defined.

(** C3, at the failing input.  A section holding a passing section and an
    empty one is a balanced use of the macros.  The report it ends with
    calls [Check] on that section in the mixed state: one child [Passed],
    one [None], none [Failed].  The assertion at the end of [Check] holds
    there, [Check] returns [Failed], and the report states that some tests
    failed although the only task of the tree passed. *)
Theorem C3_mixed_state_reported_Failed :
  balanced 0 outer_ops = true /\
  run outer_ops initial_state = Ok outer_state /\
  deref (__internal_root outer_state) [0%nat] = Some outer_segment /\
  mixed_state outer_segment /\
  Segment_Check outer_segment = Ok Outcome.Failed /\
  (forall t, t ∈ all_tasks (__internal_root outer_state) ->
             Task_Check t = Outcome.Passed) /\
  GenerateReport outer_state = Ok outer_report /\
  contains outer_report
    ("Outer:" +:+ ANSI_ITALIC +:+ ANSI_DARK_RED +:+ " [some tests failed]").
Proof.
  split; [reflexivity|]. split; [reflexivity|]. split; [reflexivity|].
  split; [|split; [reflexivity|split; [|split; [reflexivity|]]]].
  - split; [|split].
    + exists (NodeSegment passed_segment). split; [constructor | reflexivity].
    + exists (NodeSegment (mkSegment "B" [] false)).
      split; [constructor; constructor | reflexivity].
    + intros n Hn.
      apply elem_of_cons in Hn as [->|Hn]; [discriminate|].
      apply elem_of_cons in Hn as [->|Hn]; [discriminate|].
      by apply elem_of_nil in Hn.
  - intros t Ht.
    change (all_tasks (__internal_root outer_state))
      with [Task_Build "ok" src_demo true] in Ht.
    by apply list_elem_of_singleton in Ht as ->.
  - set (marker := "Outer:" +:+ ANSI_ITALIC +:+ ANSI_DARK_RED +:+ " [some tests failed]").
    exists EmptyString,
      (substring (String.length marker)
                 (String.length outer_report - String.length marker) outer_report).
    vm_compute. reflexivity.
Qed.

(** X21. For every state whose tree nests at most [2^30] levels deep, the
    report never meets the overflow of [depth * 2]: with the arithmetic of
    [int], [GenerateReport] returns, and returns the report computed in the
    integers. *)
Theorem X21_report_below_int_overflow (st : State) :
  Z.of_nat (nesting (__internal_root st)) <= 1073741824 ->
  exists report,
    GenerateReport_int st = Ok report /\
    GenerateReport st = Ok report.
Proof.
  intros Hb. destruct (GenerateReport_total st) as [report Hr].
  exists report. split; [|done]. unfold GenerateReport_int.
  rewrite Stringify_Segment_int_exact by (unfold INT_MIN; lia). exact Hr.
Qed.

Lemma X21_report_below_int_overflow_witness :
  exists report,
    GenerateReport_int math_state = Ok report /\
    GenerateReport math_state = Ok report.
Proof.
  apply (X21_report_below_int_overflow math_state). vm_compute. discriminate.
Defined.
